(** * Vulnerability metadata loading (server/vulnerabilities/sync.go)

    A shallow embedding of [parseEPSSScoresFile] and [LoadCVEMeta], with the
    parts of Go's runtime and standard library they rest on:

    - [encoding/csv]'s [Reader] in the configuration the code sets up
      (comma [,], comment [#], [FieldsPerRecord = 3], strict quotes);
    - a heap of [float64], [bool] and [time.Time] cells, because
      [fleet.CVEMeta] holds pointers and the code takes the address of
      locals and of a [range] variable;
    - Go maps as [gmap string _], iterated in an order the runtime picks;
    - the entries of the NVD dictionary with the pointers of their
      schema, and the panic the selection through a [nil] one raises.

    Language level: the file belongs to a module written for Go before
    1.22 (it still loads the NVD JSON feeds through nvdtools), where a
    [for ... range] statement declares ONE variable for the whole loop. *)

From Stdlib Require Import Ascii ZArith Lia.
From Stdlib Require String.
From Stdlib Require Import Floats.PrimFloat.
From stdpp Require Import gmap strings list fin_maps.

Set Warnings "-inexact-float".
Local Open Scope Z_scope.

(** ** Go values *)

(** [error]: the error values the two functions can return.  [Errorf p e]
    is [fmt.Errorf("p: %w", e)]. *)
Inductive csvErr := ErrBareQuote | ErrQuote | ErrFieldCount.

Inductive error :=
| EOF
| ParseError (e : csvErr)
| NumError (s : string)
| TimeParseError (s : string)
| PathError (path : string)
| SyntaxError
| StoreError (msg : string)
| Errorf (prefix : string) (e : error).

(** A call returning [(T, error)] with exactly one of the two meaningful. *)
Inductive result (A : Type) :=
| Ok (a : A)
| Fail (e : error).
Arguments Ok {A} a.
Arguments Fail {A} e.

(** A run-time panic.  The one the code at hand can raise is the
    dereference of a [nil] pointer ("invalid memory address or nil
    pointer dereference"). *)
Inductive panic := NilDereference.

(** How a stretch of code whose result is a [(T, error)] ends: it yields
    that result, or a panic unwinds it.  A result is read as the end of a
    stretch that did not panic. *)
Inductive flow (A : Type) :=
| Returns (r : result A)
| Panics (p : panic).
Arguments Returns {A} r.
Arguments Panics {A} p.
Coercion Returns : result >-> flow.

Definition float64 := float.

(** [err == nil] *)
Definition isNil {A} (err : option A) : bool :=
  match err with
  | None => true
  | Some _ => false
  end.

(** ** Byte strings *)

Module Bytes.

Definition LF : ascii := Ascii.ascii_of_nat 10.
Definition CR : ascii := Ascii.ascii_of_nat 13.
Definition quote : ascii := Ascii.ascii_of_nat 34.
Definition comma : ascii := ","%char.

(** [s[:n]] and [s[n:]], clamped like [firstn] and [skipn]. *)
Fixpoint take (n : nat) (s : string) : string :=
  match n, s with
  | S n, String c s => String c (take n s)
  | _, _ => EmptyString
  end.

Fixpoint drop (n : nat) (s : string) : string :=
  match n, s with
  | S n, String _ s => drop n s
  | _, _ => s
  end.

(** [bytes.IndexByte] *)
Fixpoint IndexByte (s : string) (c : ascii) : option nat :=
  match s with
  | EmptyString => None
  | String a s => if Ascii.eqb a c then Some O else S <$> IndexByte s c
  end.

Definition first (s : string) : option ascii :=
  match s with
  | EmptyString => None
  | String a _ => Some a
  end.

Fixpoint last (s : string) : option ascii :=
  match s with
  | EmptyString => None
  | String a EmptyString => Some a
  | String _ s => last s
  end.

Definition startsWith (c : ascii) (s : string) : bool :=
  match s with
  | String a _ => Ascii.eqb a c
  | EmptyString => false
  end.

Definition endsWith (c : ascii) (s : string) : bool :=
  match last s with
  | Some a => Ascii.eqb a c
  | None => false
  end.

End Bytes.

(** ** encoding/csv *)

Module csv.
Import Bytes.

(** The reader: its two settings the code touches, and the input as the
    lines [readLine] will hand out, one per call. *)
Record Reader := {
  Comment : option ascii;
  FieldsPerRecord : Z;
  input : list string;
}.

(** [lengthNL]: 1 when the line ends in a newline. *)
Definition lengthNL (line : string) : nat :=
  if endsWith LF line then 1%nat else 0%nat.

(** The tail of [readLine]: a trailing [\r\n] becomes [\n]. *)
Definition normalize (line : string) : string :=
  let n := String.length line in
  if (2 <=? n)%nat && endsWith LF line && endsWith CR (take (n - 1) line)
  then take (n - 2) line +:+ String LF EmptyString
  else line.

(** [readLine] at end of input with pending bytes: a trailing [\r] is
    dropped. *)
Definition dropCR (line : string) : string :=
  if endsWith CR line then take (String.length line - 1) line else line.

(** All the lines [readLine] returns for a file, in order: each runs up to
    and including its newline; bytes after the last newline form a final
    line.  [cur] holds the bytes of the line being cut. *)
Fixpoint splitLines (cur : string) (src : string) : list string :=
  match src with
  | EmptyString =>
      match cur with
      | EmptyString => []
      | _ => [normalize (dropCR cur)]
      end
  | String c src =>
      let cur := cur +:+ String c EmptyString in
      if Ascii.eqb c LF then normalize cur :: splitLines EmptyString src
      else splitLines cur src
  end.

(** [csv.NewReader] *)
Definition NewReader (file : string) : Reader :=
  {| Comment := None; FieldsPerRecord := 0; input := splitLines EmptyString file |}.

Definition isComment (r : Reader) (line : string) : bool :=
  match Comment r, first line with
  | Some c, Some a => Ascii.eqb a c
  | _, _ => false
  end.

(** The first loop of [readRecord]: read lines, skipping comment lines and
    empty lines; [None] is [io.EOF]. *)
Fixpoint nextLine (r : Reader) (lines : list string) : option (string * list string) :=
  match lines with
  | [] => None
  | line :: lines =>
      if isComment r line then nextLine r lines
      else if (String.length line =? lengthNL line)%nat then nextLine r lines
      else Some (line, lines)
  end.

(** Bytes still to be consumed by the field loop: what is left of the
    current line and the lines not yet read. *)
Definition pending (lines : list string) (line : string) : nat :=
  (String.length line + foldr (λ l n, S (String.length l + n)) 0 lines)%nat.

(** The [parseField] loop of [readRecord], one call per iteration, and
    [quotedField], its inner loop over a quoted field, which may read
    further lines.  Results: the fields completed, the parse error if any,
    and the lines left unread.  [fuel] bounds the iterations; [pending]
    gives enough of it ([parseField_fuel] below). *)
Fixpoint parseField (fuel : nat) (lines : list string) (line : string)
    (fields : list string) : list string * option csvErr * list string :=
  match fuel with
  | O => (fields, None, lines)
  | S fuel =>
      if negb (startsWith quote line) then
        (* non-quoted string field *)
        let i := IndexByte line comma in
        let field :=
          match i with
          | Some i => take i line
          | None => take (String.length line - lengthNL line) line
          end in
        match IndexByte field quote with
        | Some _ => (fields, Some ErrBareQuote, lines)
        | None =>
            match i with
            | Some i => parseField fuel lines (drop (i + 1) line) (fields ++ [field])
            | None => (fields ++ [field], None, lines)
            end
        end
      else
        (* quoted string field *)
        quotedField fuel lines (drop 1 line) fields EmptyString
  end
with quotedField (fuel : nat) (lines : list string) (line : string)
    (fields : list string) (buf : string)
    : list string * option csvErr * list string :=
  match fuel with
  | O => (fields, None, lines)
  | S fuel =>
      match IndexByte line quote with
      | Some i =>
          (* hit next quote *)
          let buf := buf +:+ take i line in
          let line := drop (i + 1) line in
          if startsWith quote line then
            quotedField fuel lines (drop 1 line) fields (buf +:+ String quote EmptyString)
          else if startsWith comma line then
            parseField fuel lines (drop 1 line) (fields ++ [buf])
          else if (lengthNL line =? String.length line)%nat then
            (fields ++ [buf], None, lines)
          else
            (fields, Some ErrQuote, lines)
      | None =>
          if (0 <? String.length line)%nat then
            (* hit end of line: copy it and read the next one *)
            match lines with
            | next :: lines => quotedField fuel lines next fields (buf +:+ line)
            | [] => quotedField fuel [] EmptyString fields (buf +:+ line)
            end
          else
            (* abrupt end of file *)
            (fields, Some ErrQuote, lines)
      end
  end.

(** [Reader.Read]: the next record and its error, and the reader
    afterwards.  A record with the wrong number of fields is returned
    together with [ErrFieldCount]. *)
Definition Read (r : Reader) : (list string * option error) * Reader :=
  match nextLine r (input r) with
  | None =>
      (([], Some EOF), {| Comment := Comment r; FieldsPerRecord := FieldsPerRecord r; input := [] |})
  | Some (line, lines) =>
      let '(dst, err, lines) := parseField (S (pending lines line)) lines line [] in
      let err := option_map ParseError err in
      if 0 <? FieldsPerRecord r then
        let err :=
          if negb (Z.of_nat (length dst) =? FieldsPerRecord r) && isNil err
          then Some (ParseError ErrFieldCount) else err in
        ((dst, err), {| Comment := Comment r; FieldsPerRecord := FieldsPerRecord r; input := lines |})
      else if FieldsPerRecord r =? 0 then
        ((dst, err), {| Comment := Comment r; FieldsPerRecord := Z.of_nat (length dst); input := lines |})
      else
        ((dst, err), {| Comment := Comment r; FieldsPerRecord := FieldsPerRecord r; input := lines |})
  end.

End csv.

(** ** Memory *)

(** Addresses of heap cells; [None] in a pointer field is [nil]. *)
Definition ptr := nat.

Section Memory.
Context {Time : Type}.

(** One store per cell type: the [float64], [bool] and [time.Time]
    variables whose address the code takes. *)
Record heap := {
  floats : list float64;
  bools : list bool;
  times : list Time;
}.

Definition emptyHeap : heap := {| floats := []; bools := []; times := [] |}.

(** A new variable of each type, initialised, and its address. *)
Definition newFloat (v : float64) (h : heap) : ptr * heap :=
  (length (floats h), {| floats := floats h ++ [v]; bools := bools h; times := times h |}).

Definition newBool (v : bool) (h : heap) : ptr * heap :=
  (length (bools h), {| floats := floats h; bools := bools h ++ [v]; times := times h |}).

Definition newTime (v : Time) (h : heap) : ptr * heap :=
  (length (times h), {| floats := floats h; bools := bools h; times := times h ++ [v] |}).

(** Modelled from the spec: [ptr.Bool] belongs to server/ptr, outside the
    files at hand.  It is taken to return the address of a new variable
    holding its argument, so that the field it is assigned to reads as the
    boolean the spec says is set. *)
Definition ptr_Bool (v : bool) (h : heap) : ptr * heap := newBool v h.

(** Assignment to an existing [float64] variable. *)
Definition storeFloat (p : ptr) (v : float64) (h : heap) : heap :=
  {| floats := <[p := v]> (floats h); bools := bools h; times := times h |}.

(** Reading through a pointer field. *)
Definition loadFloat (h : heap) (p : option ptr) : option float64 := p ≫= (floats h !!.).
Definition loadBool (h : heap) (p : option ptr) : option bool := p ≫= (bools h !!.).
Definition loadTime (h : heap) (p : option ptr) : option Time := p ≫= (times h !!.).
End Memory.
Arguments heap : clear implicits.

(** ** Data *)

Module fleet.
(** Modelled from the spec: [fleet.CVEMeta] is declared in server/fleet,
    outside the files at hand; its fields are the ones [LoadCVEMeta]
    assigns, pointers as the assignments require (the spec's
    VulnerabilityMetadata with its four optional fields). *)
Record CVEMeta := {
  CVE : string;
  CVSSScore : option ptr;
  EPSSProbability : option ptr;
  CISAKnownExploit : option ptr;
  Published : option ptr;
}.

(** The zero value, as a failed map lookup yields it. *)
Definition zero : CVEMeta :=
  {| CVE := EmptyString; CVSSScore := None; EPSSProbability := None;
     CISAKnownExploit := None; Published := None |}.
End fleet.

(** [epssScore] represents the EPSS score for a CVE. *)
Record epssScore := {
  CVE : string;
  Score : float64;
}.

(** [knownExploitedVulnerability] and the catalog holding them; of the
    catalog only [Vulnerabilities] is read. *)
Record knownExploitedVulnerability := {
  CVEID : string;
}.

Record knownExploitedVulnerabilitiesCatalog := {
  Vulnerabilities : list knownExploitedVulnerability;
}.

(** What [LoadCVEMeta] reads of an entry of the NVD dictionary, through
    [Schema()]: the path [Impact.BaseMetricV3.CVSSV3.BaseScore] and
    [PublishedDate].  In the schema of nvdtools [Impact], [BaseMetricV3]
    and [CVSSV3] are pointers, each [nil] when the JSON item lacks the
    object; [None] is [nil]. *)
Record CVSSV30 := {
  BaseScore : float64;
}.

Record ImpactBaseMetricV3 := {
  CVSSV3 : option CVSSV30;
}.

Record DefImpact := {
  BaseMetricV3 : option ImpactBaseMetricV3;
}.

Record Vuln := {
  Impact : option DefImpact;
  PublishedDate : string;
}.

(** A [for k, v := range m] over a Go map visits each entry once, in an
    order the runtime chooses. *)
Record MapOrder (V : Type) := {
  range : gmap string V → list (string * V);
  range_perm : ∀ m, range m ≡ₚ map_to_list m;
}.
Arguments range {V} _ _.
Arguments range_perm {V} _ _.

(** The order stdpp lists a map in is one such order. *)
Definition listedOrder {V} : MapOrder V :=
  {| range := map_to_list; range_perm := λ m, reflexivity (map_to_list m) |}.

(** [score, ok := metaMap[k]] *)
Definition lookup2 (metaMap : gmap string fleet.CVEMeta) (k : string) : fleet.CVEMeta * bool :=
  match metaMap !! k with
  | Some score => (score, true)
  | None => (fleet.zero, false)
  end.

(** ** parseEPSSScoresFile *)

(** [rec[i]]; the code indexes records of three fields only, at 0 and 1. *)
Definition field (rec : list string) (i : nat) : string :=
  default EmptyString (rec !! i).

Section parseEPSSScoresFile.
(** [strconv.ParseFloat(s, 64)] *)
Variable ParseFloat : string → result float64.

(** The [for] loop: one call per iteration, on the reader [r] and the
    scores appended so far. *)
Fixpoint parseLoop (fuel : nat) (r : csv.Reader) (epssScores : list epssScore)
    : list epssScore * option error :=
  match fuel with
  | O => (epssScores, None)
  | S fuel =>
      let '((rec, err), r) := csv.Read r in
      match err with
      | Some EOF => (epssScores, None)
      | Some err => ([], Some err)
      | None =>
          (* each row should have 3 records: cve, epss, and percentile *)
          if negb (length rec =? 3)%nat then parseLoop fuel r epssScores
          else
            let cve := field rec 0 in
            match ParseFloat (field rec 1) with
            | Fail err => ([], Some (Errorf "parse epss score" err))
            | Ok score =>
                (* ignore percentile *)
                parseLoop fuel r (epssScores ++ [{| CVE := cve; Score := score |}])
            end
      end
  end.

(** The reader as the function configures it. *)
Definition epssReader (f : string) : csv.Reader :=
  {| csv.Comment := Some "#"%char; csv.FieldsPerRecord := 3;
     csv.input := csv.input (csv.NewReader f) |}.

(** The reader once the header has been read, whatever that read said. *)
Definition afterHeader (f : string) : csv.Reader := (csv.Read (epssReader f)).2.

(** [opened] is what [os.Open(path)] gave: an error, or the file, here the
    bytes it holds. *)
Definition parseEPSSScoresFile (opened : result string) : list epssScore * option error :=
  match opened with
  | Fail err => ([], Some err)
  | Ok f =>
      let r := epssReader f in
      (* skip the header *)
      let '(_, r) := csv.Read r in
      parseLoop (S (length (csv.input r))) r []
  end.
End parseEPSSScoresFile.

(** ** LoadCVEMeta *)

Section LoadCVEMeta.
Context {Time : Type}.

(** [time.Parse(layout, value)], and the layout [publishedDateFmt], a
    constant of the package declared in another file. *)
Variable time_Parse : string → string → result Time.
Variable publishedDateFmt : string.
Variable ParseFloat : string → result float64.

(** The orders of the three [range] loops over maps. *)
Variable dictOrder : MapOrder Vuln.
Variable fillOrder : MapOrder fleet.CVEMeta.
Variable sliceOrder : MapOrder fleet.CVEMeta.

(** The local state of a run: the variables living on the heap, and
    [metaMap]. *)
Record state := {
  mem : heap Time;
  metaMap : gmap string fleet.CVEMeta;
}.

(** [metaMap := make(map[string]fleet.CVEMeta)] *)
Definition initial : state := {| mem := emptyHeap; metaMap := ∅ |}.

(** *** load cvss scores *)

(** The body of [for cve := range dict]: [Ok] goes on to the next
    entry, [Fail] is the [return], and the two selections through a
    pointer the code does not test panic when it is [nil]:
    [schema.Impact.BaseMetricV3] in the condition of the [if], and
    [.CVSSV3.BaseScore] in the statement after it, ahead of the call of
    [time.Parse]. *)
Definition cvssBody (st : state) (cve : string) (schema : Vuln) : flow state :=
  match Impact schema with
  | None => Panics NilDereference
  | Some impact =>
      match BaseMetricV3 impact with
      | None => Ok st
      | Some baseMetricV3 =>
          match CVSSV3 baseMetricV3 with
          | None => Panics NilDereference
          | Some cvssV3 =>
              let baseScore := BaseScore cvssV3 in
              let '(pBaseScore, h) := newFloat baseScore (mem st) in
              match time_Parse publishedDateFmt (PublishedDate schema) with
              | Fail err => Fail (Errorf "parse published_date" err)
              | Ok published =>
                  let '(pPublished, h) := newTime published h in
                  let meta :=
                    {| fleet.CVE := cve;
                       fleet.CVSSScore := Some pBaseScore;
                       fleet.EPSSProbability := None;
                       fleet.CISAKnownExploit := None;
                       fleet.Published := Some pPublished |} in
                  Ok {| mem := h; metaMap := <[cve := meta]> (metaMap st) |}
              end
          end
      end
  end.

Fixpoint cvssLoop (entries : list (string * Vuln)) (st : state) : flow state :=
  match entries with
  | [] => Ok st
  | (cve, schema) :: entries =>
      match cvssBody st cve schema with
      | Panics p => Panics p
      | Returns (Fail err) => Fail err
      | Returns (Ok st) => cvssLoop entries st
      end
  end.

Definition loadCVSS (dict : gmap string Vuln) : flow state :=
  cvssLoop (range dictOrder dict) initial.

(** *** load epss scores *)

(** The body of [for _, epssScore := range epssScores].  The variable
    [epssScore] is one variable for the whole loop; [pScore] is the
    address of its field [Score], which each iteration overwrites with
    the element's and which [&epssScore.Score] evaluates to. *)
Definition epssBody (pScore : ptr) (st : state) (elem : epssScore) : state :=
  let h := storeFloat pScore (Score elem) (mem st) in
  let '(score, ok) := lookup2 (metaMap st) (CVE elem) in
  let score :=
    if ok then score
    else {| fleet.CVE := CVE elem;
            fleet.CVSSScore := fleet.CVSSScore score;
            fleet.EPSSProbability := fleet.EPSSProbability score;
            fleet.CISAKnownExploit := fleet.CISAKnownExploit score;
            fleet.Published := fleet.Published score |} in
  let score :=
    {| fleet.CVE := fleet.CVE score;
       fleet.CVSSScore := fleet.CVSSScore score;
       fleet.EPSSProbability := Some pScore;
       fleet.CISAKnownExploit := fleet.CISAKnownExploit score;
       fleet.Published := fleet.Published score |} in
  {| mem := h; metaMap := <[CVE elem := score]> (metaMap st) |}.

Definition loadEPSS (epssScores : list epssScore) (st : state) : state :=
  let '(pScore, h) := newFloat 0%float (mem st) in
  foldl (epssBody pScore) {| mem := h; metaMap := metaMap st |} epssScores.

(** *** load known exploits *)

(** The body of [for _, vuln := range catalog.Vulnerabilities]. *)
Definition exploitBody (st : state) (vuln : knownExploitedVulnerability) : state :=
  let '(score, ok) := lookup2 (metaMap st) (CVEID vuln) in
  let score :=
    if ok then score
    else {| fleet.CVE := CVEID vuln;
            fleet.CVSSScore := fleet.CVSSScore score;
            fleet.EPSSProbability := fleet.EPSSProbability score;
            fleet.CISAKnownExploit := fleet.CISAKnownExploit score;
            fleet.Published := fleet.Published score |} in
  let '(pTrue, h) := ptr_Bool true (mem st) in
  let score :=
    {| fleet.CVE := fleet.CVE score;
       fleet.CVSSScore := fleet.CVSSScore score;
       fleet.EPSSProbability := fleet.EPSSProbability score;
       fleet.CISAKnownExploit := Some pTrue;
       fleet.Published := fleet.Published score |} in
  {| mem := h; metaMap := <[CVEID vuln := score]> (metaMap st) |}.

Definition loadKnownExploits (catalog : knownExploitedVulnerabilitiesCatalog)
    (st : state) : state :=
  foldl exploitBody st (Vulnerabilities catalog).

(** *** all other CVEs have known exploit set to false *)

(** The body of [for cve, meta := range metaMap].  The loop writes under
    keys the map already has, each at its own visit, so the entries it is
    handed are those of the map as it was when the loop began. *)
Definition fillBody (st : state) (entry : string * fleet.CVEMeta) : state :=
  let '(cve, meta) := entry in
  match fleet.CISAKnownExploit meta with
  | None =>
      let '(pFalse, h) := ptr_Bool false (mem st) in
      let meta :=
        {| fleet.CVE := fleet.CVE meta;
           fleet.CVSSScore := fleet.CVSSScore meta;
           fleet.EPSSProbability := fleet.EPSSProbability meta;
           fleet.CISAKnownExploit := Some pFalse;
           fleet.Published := fleet.Published meta |} in
      {| mem := h; metaMap := <[cve := meta]> (metaMap st) |}
  | Some _ => {| mem := mem st; metaMap := <[cve := meta]> (metaMap st) |}
  end.

Definition fillDefaults (st : state) : state :=
  foldl fillBody st (range fillOrder (metaMap st)).

(** *** The merge: the four passes in the order of the code *)

Definition mergeFeeds (dict : gmap string Vuln) (epssScores : list epssScore)
    (catalog : knownExploitedVulnerabilitiesCatalog) : flow state :=
  match loadCVSS dict with
  | Panics p => Panics p
  | Returns (Fail err) => Fail err
  | Returns (Ok st) => Ok (fillDefaults (loadKnownExploits catalog (loadEPSS epssScores st)))
  end.

(** *** What a record holds: its fields read through their pointers *)

Record values := {
  id : string;
  severityScore : option float64;
  published : option Time;
  exploitProbability : option float64;
  knownExploited : option bool;
}.

Definition deref (h : heap Time) (meta : fleet.CVEMeta) : values :=
  {| id := fleet.CVE meta;
     severityScore := loadFloat h (fleet.CVSSScore meta);
     published := loadTime h (fleet.Published meta);
     exploitProbability := loadFloat h (fleet.EPSSProbability meta);
     knownExploited := loadBool h (fleet.CISAKnownExploit meta) |}.

(** The canonical mapping of a state. *)
Definition canonical (st : state) : gmap string values :=
  deref (mem st) <$> metaMap st.

(** *** The function, against its surroundings *)

(** What the function finds outside itself: the results of the calls
    it makes into the file system, the NVD tools, [encoding/json] and
    the datastore.  The values of the dictionary are the [*nvd.Vuln]
    that [LoadJSONDictionary] builds, one per item of a feed, so the
    type assertion of the first loop holds and [Schema()] is the item. *)
Record World := {
  getNVDCVEFeedFiles : result (list string);
  LoadJSONDictionary : list string → result (gmap string Vuln);
  openEPSS : result string;
  readCISA : result string;
  Unmarshal : string → result knownExploitedVulnerabilitiesCatalog;
  InsertCVEMeta : heap Time → list fleet.CVEMeta → option error;
}.

(** How a call of the function ends: it returns its error ([None] is
    [nil]), or a panic unwinds it. *)
Inductive ending :=
| Returned (err : option error)
| Panicked (p : panic).

(** The outcome: how the call ended and the calls of [ds.InsertCVEMeta]
    made, each with the slice passed and the heap its pointers lead
    into. *)
Record Outcome := {
  ended : ending;
  inserts : list (list fleet.CVEMeta * heap Time);
}.

Definition ret (err : option error) : Outcome := {| ended := Returned err; inserts := [] |}.

Definition LoadCVEMeta (w : World) : Outcome :=
  (* load cvss scores *)
  match getNVDCVEFeedFiles w with
  | Fail err => ret (Some (Errorf "get nvd cve feeds" err))
  | Ok files =>
  match LoadJSONDictionary w files with
  | Fail err => ret (Some err)
  | Ok dict =>
  match loadCVSS dict with
  | Panics p => {| ended := Panicked p; inserts := [] |}
  | Returns (Fail err) => ret (Some err)
  | Returns (Ok st) =>
  (* load epss scores *)
  match parseEPSSScoresFile ParseFloat (openEPSS w) with
  | (_, Some err) => ret (Some (Errorf "parse epss scores" err))
  | (epssScores, None) =>
  let st := loadEPSS epssScores st in
  (* load known exploits *)
  match readCISA w with
  | Fail err => ret (Some err)
  | Ok b =>
  match Unmarshal w b with
  | Fail err =>
      ret (Some (Errorf "unmarshal cisa known exploited vulnerabilities catalog" err))
  | Ok catalog =>
  let st := loadKnownExploits catalog st in
  let st := fillDefaults st in
  if (size (metaMap st) =? 0)%nat then ret None
  else
    (* convert to slice *)
    let meta := (range sliceOrder (metaMap st)).*2 in
    let call := (meta, mem st) in
    match InsertCVEMeta w (mem st) meta with
    | Some err =>
        {| ended := Returned (Some (Errorf "insert cve meta" err)); inserts := [call] |}
    | None => {| ended := Returned None; inserts := [call] |}
    end
  end end end end end end.
End LoadCVEMeta.

Arguments state : clear implicits.
Arguments values : clear implicits.
Arguments World : clear implicits.
Arguments Outcome : clear implicits.

(** * Vocabulary of the statements *)

(** ** Records of a file *)

Section records.
Variable ParseFloat : string → result float64.

(** [record_at r rec err]: continuing to call [Read] from [r], some call
    returns the record [rec] with the error [err], before any call
    reports [io.EOF]. *)
Inductive record_at : csv.Reader → list string → option error → Prop :=
| record_here r rec err r' :
    csv.Read r = ((rec, err), r') → err ≠ Some EOF → record_at r rec err
| record_later r rec0 err0 r' rec err :
    csv.Read r = ((rec0, err0), r') → err0 ≠ Some EOF →
    record_at r' rec err → record_at r rec err.

(** A row the loop body accepts: three fields, the second a number. *)
Definition wellFormed (rec : list string) (err : option error) : Prop :=
  err = None ∧ length rec = 3%nat ∧ ∃ score, ParseFloat (field rec 1) = Ok score.
End records.

(** ** Entries of the dictionary *)

(** The version-3 base score of an entry: the value at the end of the
    path [Impact.BaseMetricV3.CVSSV3.BaseScore], when the three pointers
    on the way are set. *)
Definition baseScoreV3 (schema : Vuln) : option float64 :=
  match Impact schema with
  | Some impact =>
      match BaseMetricV3 impact with
      | Some baseMetricV3 =>
          match CVSSV3 baseMetricV3 with
          | Some cvssV3 => Some (BaseScore cvssV3)
          | None => None
          end
      | None => None
      end
  | None => None
  end.

(** The version-3 block of an entry, when it has one. *)
Definition blockV3 (schema : Vuln) : option ImpactBaseMetricV3 :=
  match Impact schema with
  | Some impact => BaseMetricV3 impact
  | None => None
  end.

(** An entry on which the first loop panics: it has no [Impact], or a
    version-3 block without [CVSSV3]. *)
Definition nilDereference (schema : Vuln) : bool :=
  match Impact schema with
  | None => true
  | Some impact =>
      match BaseMetricV3 impact with
      | None => false
      | Some baseMetricV3 => isNil (CVSSV3 baseMetricV3)
      end
  end.

(** The three kinds of entry a feed item gives: with a version-3 block
    and its score, with an impact that has no version-3 block, and
    without an impact. *)
Definition entryV3 (baseScore : float64) (publishedDate : string) : Vuln :=
  {| Impact := Some {| BaseMetricV3 := Some {| CVSSV3 := Some {| BaseScore := baseScore |} |} |};
     PublishedDate := publishedDate |}.

Definition entryNoV3 (publishedDate : string) : Vuln :=
  {| Impact := Some {| BaseMetricV3 := None |}; PublishedDate := publishedDate |}.

Definition entryNoImpact (publishedDate : string) : Vuln :=
  {| Impact := None; PublishedDate := publishedDate |}.

(** ** Records as values, well-formed states *)

Section views.
Context {Time : Type}.
Variable time_Parse : string → string → result Time.
Variable publishedDateFmt : string.

Implicit Types (st : state Time) (h : heap Time) (v : values Time).
Implicit Types (meta score : fleet.CVEMeta) (k cve : string).

(** The record a failed lookup turns into once its identifier is set. *)
Definition fresh k : values Time :=
  {| id := k; severityScore := None; published := None;
     exploitProbability := None; knownExploited := None |}.

Definition withProbability (p : option float64) v : values Time :=
  {| id := id v; severityScore := severityScore v; published := published v;
     exploitProbability := p; knownExploited := knownExploited v |}.

Definition withKnown (b : option bool) v : values Time :=
  {| id := id v; severityScore := severityScore v; published := published v;
     exploitProbability := exploitProbability v; knownExploited := b |}.

Definition fillValue v : values Time :=
  match knownExploited v with
  | None => withKnown (Some false) v
  | Some _ => v
  end.

(** What the first loop makes of a dictionary entry, when the entry has
    a version-3 block with its base score and its date parses. *)
Definition seedValue k (schema : Vuln) : option (values Time) :=
  match baseScoreV3 schema, time_Parse publishedDateFmt (PublishedDate schema) with
  | Some baseScore, Ok t =>
      Some {| id := k; severityScore := Some baseScore; published := Some t;
              exploitProbability := None; knownExploited := None |}
  | _, _ => None
  end.

(** An entry on which the first loop returns its error. *)
Definition badDate (schema : Vuln) : Prop :=
  is_Some (baseScoreV3 schema) ∧
  ∃ err, time_Parse publishedDateFmt (PublishedDate schema) = Fail err.

(** An entry with a version-3 block whose date does not parse, whatever
    the block holds. *)
Definition illDated (schema : Vuln) : Prop :=
  is_Some (blockV3 schema) ∧
  ∃ err, time_Parse publishedDateFmt (PublishedDate schema) = Fail err.

(** *** Well-formed states *)

Definition inHeap {A} (cells : list A) (p : option ptr) : Prop :=
  ∀ a, p = Some a → (a < length cells)%nat.

(** Every record sits under its own identifier and its pointers lead to
    cells of the heap. *)
Definition valid st : Prop :=
  ∀ k meta, metaMap st !! k = Some meta →
    fleet.CVE meta = k ∧
    inHeap (floats (mem st)) (fleet.CVSSScore meta) ∧
    inHeap (floats (mem st)) (fleet.EPSSProbability meta) ∧
    inHeap (bools (mem st)) (fleet.CISAKnownExploit meta) ∧
    inHeap (times (mem st)) (fleet.Published meta).

(** The record an iteration stores under [k], given what the lookup
    found there. *)
Definition scored (p : ptr) k (found : option fleet.CVEMeta) : fleet.CVEMeta :=
  {| fleet.CVE := match found with Some meta => fleet.CVE meta | None => k end;
     fleet.CVSSScore := found ≫= fleet.CVSSScore;
     fleet.EPSSProbability := Some p;
     fleet.CISAKnownExploit := found ≫= fleet.CISAKnownExploit;
     fleet.Published := found ≫= fleet.Published |}.

(** The record the merge ends with under [k], pass by pass. *)
Definition overlaid (dict : gmap string Vuln) (epssScores : list epssScore)
    (catalog : knownExploitedVulnerabilitiesCatalog) k : option (values Time) :=
  let seeded := dict !! k ≫= seedValue k in
  let scored :=
    if decide (k ∈ CVE <$> epssScores)
    then Some (withProbability (Score <$> last epssScores) (default (fresh k) seeded))
    else seeded in
  let marked :=
    if decide (k ∈ CVEID <$> Vulnerabilities catalog)
    then Some (withKnown (Some true) (default (fresh k) scored))
    else scored in
  fillValue <$> marked.

(** The second loop as it would run with a variable of its own in every
    iteration (Go from 1.22 on, or the copy [epssScore := epssScore] at
    the head of the body): [&epssScore.Score] is then a new cell each
    time.  Not the code at hand; kept to tell what the shared variable
    changes. *)
Definition epssBodyPerIteration st (elem : epssScore) : state Time :=
  let '(pScore, h) := newFloat (Score elem) (mem st) in
  {| mem := h;
     metaMap := <[CVE elem := scored pScore (CVE elem) (metaMap st !! CVE elem)]> (metaMap st) |}.

Definition loadEPSSPerIteration (epssScores : list epssScore) st : state Time :=
  foldl epssBodyPerIteration st epssScores.

(** The last element of the sequence that names [k]. *)
Definition lastFor k (epssScores : list epssScore) : option epssScore :=
  last (filter (λ elem, CVE elem = k) epssScores).
End views.

(** * The callers: downloading the feeds, and the paths *)

(** ** strings.HasSuffix, strings.TrimSuffix *)

Definition strings_HasSuffix (s suffix : string) : bool :=
  (String.length suffix <=? String.length s)%nat &&
  String.eqb (Bytes.drop (String.length s - String.length suffix) s) suffix.

Definition strings_TrimSuffix (s suffix : string) : string :=
  if strings_HasSuffix s suffix
  then Bytes.take (String.length s - String.length suffix) s
  else s.

(** ** The constants of the file *)

Definition epssFeedsURL : string := "https://epss.cyentia.com".
Definition epssFilename : string := "epss_scores-current.csv.gz".
Definition cisaKnownExploitsURL : string :=
  "https://www.cisa.gov/sites/default/files/feeds/known_exploited_vulnerabilities.json".
Definition cisaKnownExploitsFilename : string := "known_exploited_vulnerabilities.json".

(** ** Sync and the two download functions *)

Section Sync.
Context {URL : Type}.

(** What the download functions call: [DownloadCPEDatabase] and
    [DownloadNVDCVEFeed] of the package (declared in other files, each
    given by its result for its arguments), [url.Parse] and the text of a
    parsed URL, [filepath.Join], and the two primitives of pkg/download.
    The HTTP client handed along is part of these surroundings. *)
Record Net := {
  DownloadCPEDatabase : string → string → option error;
  DownloadNVDCVEFeed : string → string → option error;
  url_Parse : string → result URL;
  url_String : URL → string;
  filepath_Join : string → string → string;
  download_DownloadAndExtract : URL → string → option error;
  download_Download : URL → string → option error;
}.

(** The downloads attempted, in the order of the calls. *)
Inductive attempt :=
| CPEDatabase (vulnPath cpeDatabaseURL : string)
| NVDCVEFeed (vulnPath cveFeedPrefixURL : string)
| Extracted (u : URL) (path : string)
| Fetched (u : URL) (path : string).

(** [DownloadEPSSFeed] downloads the EPSS scores feed. *)
Definition DownloadEPSSFeed (net : Net) (vulnPath : string) : option error * list attempt :=
  let urlString := epssFeedsURL +:+ "/" +:+ epssFilename in
  match url_Parse net urlString with
  | Fail err => (Some (Errorf "parse url" err), [])
  | Ok u =>
      let path := filepath_Join net vulnPath (strings_TrimSuffix epssFilename ".gz") in
      match download_DownloadAndExtract net u path with
      | Some err => (Some (Errorf ("download " +:+ url_String net u) err), [Extracted u path])
      | None => (None, [Extracted u path])
      end
  end.

(** [DownloadCISAKnownExploitsFeed] downloads the CISA known exploited
    vulnerabilities feed. *)
Definition DownloadCISAKnownExploitsFeed (net : Net) (vulnPath : string)
    : option error * list attempt :=
  let path := filepath_Join net vulnPath cisaKnownExploitsFilename in
  match url_Parse net cisaKnownExploitsURL with
  | Fail err => (Some err, [])
  | Ok u =>
      match download_Download net u path with
      | Some err => (Some (Errorf "download cisa known exploits" err), [Fetched u path])
      | None => (None, [Fetched u path])
      end
  end.

(** [Sync] downloads all the vulnerability data sources. *)
Definition Sync (net : Net) (vulnPath cpeDatabaseURL : string) : option error * list attempt :=
  match DownloadCPEDatabase net vulnPath cpeDatabaseURL with
  | Some err => (Some (Errorf "sync CPE database" err), [CPEDatabase vulnPath cpeDatabaseURL])
  | None =>
  let log := [CPEDatabase vulnPath cpeDatabaseURL; NVDCVEFeed vulnPath EmptyString] in
  match DownloadNVDCVEFeed net vulnPath EmptyString with
  | Some err => (Some (Errorf "sync NVD CVE feed" err), log)
  | None =>
  match DownloadEPSSFeed net vulnPath with
  | (Some err, made) => (Some (Errorf "sync EPSS CVE feed" err), log ++ made)
  | (None, made) =>
  let log := log ++ made in
  match DownloadCISAKnownExploitsFeed net vulnPath with
  | (Some err, made) => (Some (Errorf "sync CISA known exploits feed" err), log ++ made)
  | (None, made) => (None, log ++ made)
  end end end end.
End Sync.
Arguments Net : clear implicits.
Arguments attempt : clear implicits.

(** The place of an attempt in the order of [Sync], and what the
    surroundings answer to it. *)
Definition rank {URL} (a : attempt URL) : nat :=
  match a with
  | CPEDatabase _ _ => 0
  | NVDCVEFeed _ _ => 1
  | Extracted _ _ => 2
  | Fetched _ _ => 3
  end.

Definition answer {URL} (net : Net URL) (a : attempt URL) : option error :=
  match a with
  | CPEDatabase vulnPath cpeDatabaseURL => DownloadCPEDatabase net vulnPath cpeDatabaseURL
  | NVDCVEFeed vulnPath cveFeedPrefixURL => DownloadNVDCVEFeed net vulnPath cveFeedPrefixURL
  | Extracted u path => download_DownloadAndExtract net u path
  | Fetched u path => download_Download net u path
  end.

(** ** LoadCVEMeta and the paths it reads *)

Section LoadCVEMetaAt.
Context {Time : Type}.

(** The disk as [LoadCVEMeta] meets it: [getNVDCVEFeedFiles(vulnPath)],
    [os.Open(path)] with the bytes of the file opened, and
    [os.ReadFile(path)]. *)
Record Disk := {
  getNVDCVEFeedFilesIn : string → result (list string);
  os_Open : string → result string;
  os_ReadFile : string → result string;
}.

(** The surroundings of a run on [vulnPath]: the two paths are computed
    as the function computes them. *)
Definition worldAt (join : string → string → string) (disk : Disk) (vulnPath : string)
    (loadDictionary : list string → result (gmap string Vuln))
    (unmarshal : string → result knownExploitedVulnerabilitiesCatalog)
    (insert : heap Time → list fleet.CVEMeta → option error) : World Time :=
  {| getNVDCVEFeedFiles := getNVDCVEFeedFilesIn disk vulnPath;
     LoadJSONDictionary := loadDictionary;
     openEPSS := os_Open disk (join vulnPath (strings_TrimSuffix epssFilename ".gz"));
     readCISA := os_ReadFile disk (join vulnPath cisaKnownExploitsFilename);
     Unmarshal := unmarshal;
     InsertCVEMeta := insert |}.
End LoadCVEMetaAt.

(** ** The records a file yields *)

(** [reads r recs]: from [r], the calls of [Read] return the records
    [recs], each without an error, and then [io.EOF]. *)
Inductive reads : csv.Reader → list (list string) → Prop :=
| reads_eof r rec r' :
    csv.Read r = ((rec, Some EOF), r') → reads r []
| reads_record r rec r' recs :
    csv.Read r = ((rec, None), r') → reads r' recs → reads r (rec :: recs).

(** [reads_until r recs r']: from [r], the calls of [Read] return the
    records [recs], each without an error, and leave the reader [r']. *)
Inductive reads_until : csv.Reader → list (list string) → csv.Reader → Prop :=
| until_here r : reads_until r [] r
| until_later r rec r1 recs r' :
    csv.Read r = ((rec, None), r1) → reads_until r1 recs r' →
    reads_until r (rec :: recs) r'.

(** A first line that is a record of unquoted fields: not empty, not a
    comment, without a quote, and without a newline or a carriage return
    of its own. *)
Definition plainLine (line : string) : Prop :=
  line ≠ EmptyString ∧ Bytes.startsWith "#" line = false ∧
  Bytes.IndexByte line Bytes.LF = None ∧ Bytes.IndexByte line Bytes.CR = None ∧
  Bytes.IndexByte line Bytes.quote = None.

(** * Sample surroundings *)

(** Stand-ins for the library calls and a few files, for the examples. *)
Module Sample.

(** [strconv.ParseFloat] on the literals the examples use. *)
Definition ParseFloat (s : string) : result float64 :=
  if decide (s = "0.5") then Ok 0.5%float
  else if decide (s = "0.25") then Ok 0.25%float
  else if decide (s = "0.42") then Ok 0.42%float
  else if decide (s = "0.10") then Ok 0.10%float
  else Fail (NumError s).

(** [time.Parse] accepting the values that are as long as the layout. *)
Definition time_Parse (layout value : string) : result string :=
  if (String.length value =? String.length layout)%nat then Ok value
  else Fail (TimeParseError value).

Definition publishedDateFmt : string := "2006-01-02T15:04Z".

(** A file of the given lines, each ended by a newline. *)
Definition file (lines : list string) : string :=
  foldr (λ line rest, line +:+ String Bytes.LF rest) EmptyString lines.

Definition header : string := "cve,epss,percentile".

(** A header with a bare quote in its second field. *)
Definition quotedHeader : string :=
  "cve,ep" +:+ String Bytes.quote "ss,percentile".

Definition wellFormedFile : string :=
  file ["#model_version:v2022.01.01"; header; "CVE-1,0.5,0.9"; "CVE-2,0.25,0.1"].

Definition shortRowFile : string :=
  file [header; "CVE-1,0.5,0.9"; "CVE-2,0.25"; "CVE-3,0.5,0.1"].

Definition badScoreFile : string :=
  file [header; "CVE-1,0.5,0.9"; "CVE-2,high,0.1"; "CVE-3,0.5,0.1"].

Definition shortHeaderFile : string := file ["cve,epss"; "CVE-1,0.5,0.9"].
Definition quotedHeaderFile : string := file [quotedHeader; "CVE-1,0.5,0.9"].
Definition shortSecondFile : string := file [header; "cve,epss"; "CVE-1,0.5,0.9"].
Definition quotedSecondFile : string := file [header; quotedHeader; "CVE-1,0.5,0.9"].

(** The scenario of the specification. *)
Definition scenarioDict : gmap string Vuln :=
  {[ "V-1" := entryV3 7.5%float "2021-01-01T00:00Z" ]}.

Definition scenarioScores : list epssScore :=
  [ {| CVE := "V-1"; Score := 0.42%float |}; {| CVE := "V-2"; Score := 0.10%float |} ].

Definition scenarioCatalog : knownExploitedVulnerabilitiesCatalog :=
  {| Vulnerabilities := [ {| CVEID := "V-2" |} ] |}.


(** A dictionary whose only entry has no version-3 block. *)
Definition oldDict : gmap string Vuln :=
  {[ "V-0" := entryNoV3 "1999-01-01T00:00Z" ]}.

(** A dictionary with an ill-dated entry and an entry without an impact,
    as a feed item without the key [impact] gives. *)
Definition impactlessDict : gmap string Vuln :=
  {[ "V-0" := entryNoImpact "1999-01-01T00:00Z";
     "V-3" := entryV3 9.8%float "01/01/2021" ]}.

(** A dictionary whose only entry has a version-3 block without its CVSS
    data, and a date that does not parse. *)
Definition scorelessDict : gmap string Vuln :=
  {[ "V-3" := {| Impact := Some {| BaseMetricV3 := Some {| CVSSV3 := None |} |};
                 PublishedDate := "01/01/2021" |} ]}.

(** Surroundings in which every call succeeds, around the given
    dictionary, score file and catalog. *)
Definition world (dict : gmap string Vuln) (epss : string)
    (catalog : knownExploitedVulnerabilitiesCatalog) : World string :=
  {| getNVDCVEFeedFiles := Ok ["nvdcve-1.1-2021.json.gz"];
     LoadJSONDictionary := λ _, Ok dict;
     openEPSS := Ok epss;
     readCISA := Ok "{}";
     Unmarshal := λ _, Ok catalog;
     InsertCVEMeta := λ _ _, None |}.

(** Three score rows, the identifier V-1 twice and then V-2. *)
Definition duplicateScores : list epssScore :=
  [ {| CVE := "V-1"; Score := 0.2%float |}; {| CVE := "V-1"; Score := 0.9%float |};
    {| CVE := "V-2"; Score := 0.5%float |} ].


(** The states the scenario goes through. *)
Definition scenarioSeeded : state string :=
  match loadCVSS time_Parse publishedDateFmt listedOrder scenarioDict with
  | Returns (Ok st) => st
  | _ => initial
  end.

Definition scenarioState : state string :=
  match mergeFeeds time_Parse publishedDateFmt listedOrder listedOrder
          scenarioDict scenarioScores scenarioCatalog with
  | Returns (Ok st) => st
  | _ => initial
  end.

Definition scenarioV2 : fleet.CVEMeta := default fleet.zero (metaMap scenarioState !! "V-2").

(** The mapping the specification expects of the scenario. *)
Definition scenarioExpected : gmap string (values string) :=
  {[ "V-1" := {| id := "V-1"; severityScore := Some 7.5%float;
                 published := Some "2021-01-01T00:00Z";
                 exploitProbability := None; knownExploited := Some false |};
     "V-2" := {| id := "V-2"; severityScore := None; published := None;
                 exploitProbability := Some 0.10%float; knownExploited := Some true |} ]}.

(** A score row without an identifier, as the line [,0.5,0.9] gives. *)
Definition anonymousScores : list epssScore := [ {| CVE := EmptyString; Score := 0.5%float |} ].

Definition emptyCatalog : knownExploitedVulnerabilitiesCatalog := {| Vulnerabilities := [] |}.
End Sample.

(** Surroundings for the examples of the downloads. *)
Module SampleSync.

(** URLs as their text; paths joined with a slash; every download
    succeeds but the one of the NVD feed into the directory [/offline]. *)
Definition net : Net string :=
  {| DownloadCPEDatabase := λ _ _, None;
     DownloadNVDCVEFeed := λ vulnPath _,
       if decide (vulnPath = "/offline") then Some (StoreError "no route to host") else None;
     url_Parse := Ok;
     url_String := λ u, u;
     filepath_Join := λ dir name, dir +:+ "/" +:+ name;
     download_DownloadAndExtract := λ _ _, None;
     download_Download := λ _ _, None |}.

(** A disk holding the two feeds under [/vulns]. *)
Definition disk : Disk :=
  {| getNVDCVEFeedFilesIn := λ _, Ok ["nvdcve-1.1-2021.json.gz"];
     os_Open := λ path,
       if decide (path = "/vulns/epss_scores-current.csv") then Ok Sample.wellFormedFile
       else Fail (PathError path);
     os_ReadFile := λ path,
       if decide (path = "/vulns/known_exploited_vulnerabilities.json") then Ok "{}"
       else Fail (PathError path) |}.

(** A catalog naming V-2 twice and V-9. *)
Definition repeatedCatalog : knownExploitedVulnerabilitiesCatalog :=
  {| Vulnerabilities := [ {| CVEID := "V-9" |}; {| CVEID := "V-2" |}; {| CVEID := "V-2" |} ] |}.

Definition plainCatalog : knownExploitedVulnerabilitiesCatalog :=
  {| Vulnerabilities := [ {| CVEID := "V-2" |}; {| CVEID := "V-9" |} ] |}.

(** The maps listed backwards: another order of iteration. *)
Definition reversedOrder {V} : MapOrder V :=
  {| range := λ m, reverse (map_to_list m);
     range_perm := λ m, reverse_Permutation (map_to_list m) |}.

(** The scenario's dictionary merged with the given scores and catalog. *)
Definition mergedWith (epssScores : list epssScore)
    (catalog : knownExploitedVulnerabilitiesCatalog) : state string :=
  match mergeFeeds Sample.time_Parse Sample.publishedDateFmt listedOrder listedOrder
          Sample.scenarioDict epssScores catalog with
  | Returns (Ok st) => st
  | _ => initial
  end.

(** The attempts of a [Sync] that succeeds on [/vulns]. *)
Definition fullLog : list (attempt string) :=
  [ CPEDatabase "/vulns" "https://example.org/cpe.sqlite.gz";
    NVDCVEFeed "/vulns" EmptyString;
    Extracted "https://epss.cyentia.com/epss_scores-current.csv.gz"
      "/vulns/epss_scores-current.csv";
    Fetched cisaKnownExploitsURL "/vulns/known_exploited_vulnerabilities.json" ].

End SampleSync.

(** * Properties of the byte-string helpers and of the CSV reader *)

Module BytesFacts.
Import Bytes.

Lemma length_drop n s : String.length (drop n s) = (String.length s - n)%nat.
Proof. revert s; induction n; intros [|c s]; simpl; auto. Qed.

Lemma length_take n s : String.length (take n s) = (n `min` String.length s)%nat.
Proof. revert s; induction n; intros [|c s]; simpl; auto. Qed.

Lemma IndexByte_lt s c i : IndexByte s c = Some i → (i < String.length s)%nat.
Proof.
  revert i; induction s as [|a s IH]; intros i; simpl; [done|].
  destruct (Ascii.eqb a c); [intros [= <-]; lia|].
  destruct (IndexByte s c) as [j|]; simpl; [|done].
  intros [= <-]. specialize (IH j eq_refl). lia.
Qed.

Lemma startsWith_length c s : startsWith c s = true → (0 < String.length s)%nat.
Proof. destruct s; simpl; [done|lia]. Qed.

End BytesFacts.

Module csvFacts.
Import Bytes BytesFacts csv.

(** *** The field loop is total: fuel above [pending] is never used up *)

Lemma parseField_S fuel lines line fields :
  parseField (S fuel) lines line fields =
    if negb (startsWith quote line) then
      let i := IndexByte line comma in
      let field :=
        match i with
        | Some i => take i line
        | None => take (String.length line - lengthNL line) line
        end in
      match IndexByte field quote with
      | Some _ => (fields, Some ErrBareQuote, lines)
      | None =>
          match i with
          | Some i => parseField fuel lines (drop (i + 1) line) (fields ++ [field])
          | None => (fields ++ [field], None, lines)
          end
      end
    else quotedField fuel lines (drop 1 line) fields EmptyString.
Proof. reflexivity. Qed.

Lemma quotedField_S fuel lines line fields buf :
  quotedField (S fuel) lines line fields buf =
    match IndexByte line quote with
    | Some i =>
        let buf := buf +:+ take i line in
        let line := drop (i + 1) line in
        if startsWith quote line then
          quotedField fuel lines (drop 1 line) fields (buf +:+ String quote EmptyString)
        else if startsWith comma line then
          parseField fuel lines (drop 1 line) (fields ++ [buf])
        else if (lengthNL line =? String.length line)%nat then
          (fields ++ [buf], None, lines)
        else (fields, Some ErrQuote, lines)
    | None =>
        if (0 <? String.length line)%nat then
          match lines with
          | next :: lines => quotedField fuel lines next fields (buf +:+ line)
          | [] => quotedField fuel [] EmptyString fields (buf +:+ line)
          end
        else (fields, Some ErrQuote, lines)
    end.
Proof. reflexivity. Qed.

Lemma pending_drop lines line n :
  (0 < n)%nat → (0 < String.length line)%nat →
  (pending lines (drop n line) < pending lines line)%nat.
Proof. intros. unfold pending. rewrite length_drop. lia. Qed.

Lemma fuel_step n :
  (∀ lines line fields, (pending lines line < n)%nat →
     parseField n lines line fields = parseField (S n) lines line fields) ∧
  (∀ lines line fields buf, (pending lines line < n)%nat →
     quotedField n lines line fields buf = quotedField (S n) lines line fields buf).
Proof.
  induction n as [|n [IHp IHq]]; [split; intros; lia|].
  split.
  - intros lines line fields Hn.
    rewrite (parseField_S (S n)), (parseField_S n).
    destruct (startsWith quote line) eqn:Hq; cbn [negb].
    + apply IHq. apply startsWith_length in Hq.
      pose proof (pending_drop lines line 1). lia.
    + destruct (IndexByte line comma) as [i|] eqn:Hi; [|done].
      destruct (IndexByte (take i line) quote); [done|].
      apply IHp. apply IndexByte_lt in Hi.
      pose proof (pending_drop lines line (i + 1)). lia.
  - intros lines line fields buf Hn.
    rewrite (quotedField_S (S n)), (quotedField_S n).
    destruct (IndexByte line quote) as [i|] eqn:Hi; cbv zeta.
    + apply IndexByte_lt in Hi.
      assert (pending lines (drop 1 (drop (i + 1) line)) < n)%nat
        by (unfold pending in *; rewrite !length_drop; lia).
      destruct (startsWith quote _); [by apply IHq|].
      destruct (startsWith comma _); [by apply IHp|done].
    + destruct (0 <? String.length line)%nat eqn:Hl; [|done].
      apply Nat.ltb_lt in Hl.
      destruct lines as [|next lines]; apply IHq; unfold pending in *; simpl in *; lia.
Qed.

(** Any two amounts of fuel above [pending] give the same result. *)
Lemma parseField_fuel n m lines line fields :
  (pending lines line < n)%nat → (pending lines line < m)%nat →
  parseField n lines line fields = parseField m lines line fields.
Proof.
  assert (∀ k n, (pending lines line < n)%nat →
    parseField n lines line fields = parseField (k + n) lines line fields) as Hk.
  { induction k as [|k IH]; intros n' Hn; [done|].
    rewrite (IH n' Hn). simpl. apply fuel_step. lia. }
  intros Hn Hm. destruct (decide (n ≤ m)%nat).
  - replace m with ((m - n) + n)%nat by lia. by apply Hk.
  - replace n with ((n - m) + m)%nat by lia. symmetry. by apply Hk.
Qed.

(** The lines left unread are among those the loop started with. *)
Lemma fields_unread n :
  (∀ lines line fields, length (parseField n lines line fields).2 ≤ length lines)%nat ∧
  (∀ lines line fields buf, length (quotedField n lines line fields buf).2 ≤ length lines)%nat.
Proof.
  induction n as [|n [IHp IHq]]; [split; intros; simpl; lia|].
  split.
  - intros lines line fields. rewrite parseField_S.
    destruct (negb _); simpl; [|apply IHq].
    destruct (IndexByte line comma) as [i|].
    + destruct (IndexByte _ quote); simpl; [lia|apply IHp].
    + destruct (IndexByte _ quote); simpl; lia.
  - intros lines line fields buf. rewrite quotedField_S.
    destruct (IndexByte line quote) as [i|]; simpl.
    + destruct (startsWith quote _); [apply IHq|].
      destruct (startsWith comma _); [apply IHp|].
      destruct (_ =? _)%nat; simpl; lia.
    + destruct (0 <? _)%nat; simpl; [|lia].
      destruct lines as [|next lines]; [apply IHq|].
      etrans; [apply IHq|simpl; lia].
Qed.

Lemma nextLine_shrinks r lines line rest :
  nextLine r lines = Some (line, rest) → (length rest < length lines)%nat.
Proof.
  induction lines as [|l lines IH]; simpl; [done|].
  destruct (isComment r l); [intros H; apply IH in H; lia|].
  destruct (_ =? _)%nat; [intros H; apply IH in H; lia|].
  intros [= <- <-]. lia.
Qed.

(** Every [Read] that does not report [io.EOF] consumes input. *)
Lemma Read_consumes r rec err r' :
  Read r = ((rec, err), r') → err ≠ Some EOF →
  (length (input r') < length (input r))%nat.
Proof.
  unfold Read. destruct (nextLine r (input r)) as [[line lines]|] eqn:Hn.
  - apply nextLine_shrinks in Hn.
    pose proof (proj1 (fields_unread (S (pending lines line))) lines line []) as Hu.
    destruct (parseField _ lines line []) as [[dst e] rest]. simpl in Hu.
    repeat case_match; intros [= <- <- <-] _; simpl; lia.
  - intros [= <- <- <-] []. done.
Qed.

(** With [FieldsPerRecord] positive, a record that comes without an error
    has exactly that many fields. *)
Lemma Read_field_count r rec r' :
  0 < FieldsPerRecord r →
  Read r = ((rec, None), r') → Z.of_nat (length rec) = FieldsPerRecord r.
Proof.
  intros Hpos. unfold Read. destruct (nextLine r (input r)) as [[line lines]|]; [|done].
  destruct (parseField _ lines line []) as [[dst e] rest].
  destruct (0 <? FieldsPerRecord r) eqn:Hf; [|lia].
  destruct (Z.of_nat (length dst) =? FieldsPerRecord r) eqn:Hc; simpl.
  - intros [= <- _ _]. lia.
  - by destruct e.
Qed.

Lemma Read_settings r rec err r' :
  0 < FieldsPerRecord r →
  Read r = ((rec, err), r') →
  Comment r' = Comment r ∧ FieldsPerRecord r' = FieldsPerRecord r.
Proof.
  intros Hpos. unfold Read. destruct (nextLine r (input r)) as [[line lines]|].
  - destruct (parseField _ lines line []) as [[dst e] rest].
    destruct (0 <? FieldsPerRecord r) eqn:Hf; [|lia].
    by intros [= <- <- <-].
  - by intros [= <- <- <-].
Qed.

End csvFacts.

(** * Properties of parseEPSSScoresFile *)

Section parseEPSSScoresFile_facts.
Variable ParseFloat : string → result float64.

Local Abbreviation wellFormed := (wellFormed ParseFloat).

(** The loop is total: any fuel above the number of unread lines gives
    the same result. *)
Lemma parseLoop_fuel n m r acc :
  (length (csv.input r) < n)%nat → (length (csv.input r) < m)%nat →
  parseLoop ParseFloat n r acc = parseLoop ParseFloat m r acc.
Proof.
  revert m r acc. induction n as [|n IH]; intros m r acc Hn Hm; [lia|].
  destruct m as [|m]; [lia|]. simpl.
  destruct (csv.Read r) as [[rec err] r'] eqn:HR.
  destruct err as [e|].
  - by destruct e.
  - assert (length (csv.input r') < length (csv.input r))%nat
      by (eapply csvFacts.Read_consumes; [done|discriminate]).
    destruct (negb _); [apply IH; lia|].
    destruct (ParseFloat _); [apply IH; lia|done].
Qed.

(** An error reported by [Read] other than [io.EOF], on whatever record
    behind the reader, makes the loop return an error and no scores. *)
Lemma parseLoop_read_error r rec e :
  record_at r rec (Some e) →
  ∀ fuel acc, (length (csv.input r) < fuel)%nat →
    ∃ e', parseLoop ParseFloat fuel r acc = ([], Some e').
Proof.
  remember (Some e) as oe eqn:Hoe.
  induction 1 as [r rec err r' HR Hne|r rec0 err0 r' rec err HR Hne Hat IH];
    intros fuel acc Hfuel; (destruct fuel as [|fuel]; [lia|]); simpl; rewrite HR.
  - subst err. destruct e; [done|eauto..].
  - pose proof (csvFacts.Read_consumes _ _ _ _ HR Hne).
    destruct err0 as [e0|]; [destruct e0; [done|eauto..]|].
    destruct (negb _); [apply IH; [done|lia]|].
    destruct (ParseFloat _); [apply IH; [done|lia]|eauto].
Qed.

(** A record of three fields whose second does not parse as a number
    makes the loop return an error and no scores. *)
Lemma parseLoop_bad_score r rec err e :
  record_at r rec err → length rec = 3%nat →
  ParseFloat (field rec 1) = Fail e →
  ∀ fuel acc, (length (csv.input r) < fuel)%nat →
    ∃ e', parseLoop ParseFloat fuel r acc = ([], Some e').
Proof.
  intros Hat Hlen Hbad.
  induction Hat as [r rec err r' HR Hne|r rec0 err0 r' rec err HR Hne Hat IH];
    intros fuel acc Hfuel; (destruct fuel as [|fuel]; [lia|]); simpl; rewrite HR.
  - destruct err as [e0|]; [destruct e0; [done|eauto..]|].
    rewrite Hlen. simpl. rewrite Hbad. eauto.
  - pose proof (csvFacts.Read_consumes _ _ _ _ HR Hne).
    destruct err0 as [e0|]; [destruct e0; [done|eauto..]|].
    destruct (negb _); [apply IH; [done..|lia]|].
    destruct (ParseFloat (field rec0 1)); [apply IH; [done..|lia]|eauto].
Qed.

(** When every record behind the reader is well formed, the loop ends
    without an error. *)
Lemma parseLoop_succeeds fuel :
  ∀ r acc, (length (csv.input r) < fuel)%nat →
    (∀ rec err, record_at r rec err → wellFormed rec err) →
    (parseLoop ParseFloat fuel r acc).2 = None.
Proof.
  induction fuel as [|fuel IH]; intros r acc Hfuel Hall; [lia|]. simpl.
  destruct (csv.Read r) as [[rec err] r'] eqn:HR.
  assert (err = Some EOF ∨ err ≠ Some EOF) as [->|Hne]
    by (destruct err as [[]|]; auto); [done|].
  pose proof (csvFacts.Read_consumes _ _ _ _ HR Hne).
  destruct (Hall rec err) as (-> & Hlen & score & Hscore); [by econstructor|].
  rewrite Hlen, Hscore. simpl. apply IH; [lia|].
  intros rec1 err1 Hat. apply Hall. by eapply record_later.
Qed.

(** The settings of the reader stay as the function set them. *)
Lemma afterHeader_settings f :
  csv.FieldsPerRecord (afterHeader f) = 3.
Proof.
  unfold afterHeader. destruct (csv.Read (epssReader f)) as [[rec err] r'] eqn:HR.
  apply csvFacts.Read_settings in HR; [|done]. by destruct HR.
Qed.

(** After the header, a record arrives without an error only with
    exactly three fields: the [continue] for other counts is never
    taken. *)
Lemma record_at_three r rec :
  csv.FieldsPerRecord r = 3 → record_at r rec None → length rec = 3%nat.
Proof.
  remember None as oe eqn:Hoe. intros Hf Hat.
  induction Hat as [r rec err r' HR Hne|r rec0 err0 r' rec err HR Hne Hat IH]; subst.
  - apply csvFacts.Read_field_count in HR; lia.
  - apply IH; [done|]. apply csvFacts.Read_settings in HR; [|lia]. destruct HR; congruence.
Qed.

Lemma parse_unfold f :
  parseEPSSScoresFile ParseFloat (Ok f) =
    parseLoop ParseFloat (S (length (csv.input (afterHeader f)))) (afterHeader f) [].
Proof.
  unfold parseEPSSScoresFile, afterHeader.
  by destruct (csv.Read (epssReader f)) as [[rec err] r'].
Qed.

(** A record after the header with a field count other than three makes
    the parse fail. *)
Lemma parse_field_count_fatal f rec err :
  record_at (afterHeader f) rec err → length rec ≠ 3%nat →
  ∃ e, parseEPSSScoresFile ParseFloat (Ok f) = ([], Some e).
Proof.
  intros Hat Hlen. rewrite parse_unfold.
  destruct err as [e|].
  - eapply parseLoop_read_error; [done|lia].
  - apply record_at_three in Hat; [done|apply afterHeader_settings].
Qed.

(** When the first [Read] has taken the file down to the lines of
    [rest], the parse is the loop over [rest], the reader set as the
    function set it: nothing of what that read returned is left. *)
Lemma parse_resumes f rest rec0 err0 r' :
  csv.Read (epssReader f) = ((rec0, err0), r') →
  csv.input r' = csv.input (epssReader rest) →
  afterHeader f = epssReader rest ∧
  parseEPSSScoresFile ParseFloat (Ok f) =
    parseLoop ParseFloat (S (length (csv.input (epssReader rest)))) (epssReader rest) [].
Proof.
  intros HR Hin.
  assert (afterHeader f = epssReader rest) as Hr.
  { unfold afterHeader. rewrite HR. simpl.
    apply csvFacts.Read_settings in HR as [Hc Hf]; [|done].
    destruct r' as [c n l]. simpl in *. by subst. }
  split; [done|]. by rewrite parse_unfold, Hr.
Qed.

(** Records in order, then a read that reports an error: the loop
    returns that error. *)
Lemma parseLoop_fatal_after r recs r1 rec0 e r2 :
  reads_until r recs r1 → csv.FieldsPerRecord r = 3 →
  Forall (λ rec, ∃ score, ParseFloat (field rec 1) = Ok score) recs →
  csv.Read r1 = ((rec0, Some e), r2) → e ≠ EOF →
  ∀ fuel acc, (length (csv.input r) < fuel)%nat →
    parseLoop ParseFloat fuel r acc = ([], Some e).
Proof.
  intros Hreads Hf Hall HR He.
  induction Hreads as [r|r rec r1 recs r' HR1 Hreads IH]; intros fuel acc Hfuel;
    (destruct fuel as [|fuel]; [lia|]); simpl.
  - rewrite HR. by destruct e.
  - rewrite HR1. apply Forall_cons in Hall as [[score Hscore] Hall].
    assert (length rec = 3%nat) as ->
      by (apply csvFacts.Read_field_count in HR1; lia).
    simpl. rewrite Hscore.
    assert (length (csv.input r1) < length (csv.input r))%nat
      by (eapply csvFacts.Read_consumes; [done|discriminate]).
    apply IH; [|done|done|lia].
    apply csvFacts.Read_settings in HR1; [|lia]. destruct HR1; congruence.
Qed.

(** *** Claims about the parser *)

(** C4. Whenever a record after the header has three fields and its
    probability field does not parse as a floating-point number, the
    parse returns an error and no scores, whatever records come before
    or after it. *)
Theorem unparsable_score_aborts f rec err e :
  record_at (afterHeader f) rec err → length rec = 3%nat →
  ParseFloat (field rec 1) = Fail e →
  ∃ e', parseEPSSScoresFile ParseFloat (Ok f) = ([], Some e').
Proof.
  intros Hat Hlen Hbad. rewrite parse_unfold.
  eapply parseLoop_bad_score; [done..|lia].
Qed.

(** C10. Take a line whose read reports an error [e] (a number of
    fields other than three, a quote out of place) and takes that line
    only.  At the head of a file the line costs nothing: the file parses
    as the file that has any other line in its place, a well-formed
    header for one.  After the header, behind records that are in
    order, the same line makes the parse return [e] and no scores. *)
Theorem header_error_discarded line other rest rec0 e r' rec1 err1 r1 F recs :
  csv.Read (epssReader (line +:+ String Bytes.LF rest)) = ((rec0, Some e), r') →
  e ≠ EOF →
  csv.input r' = csv.input (epssReader rest) →
  csv.Read (epssReader (other +:+ String Bytes.LF rest)) = ((rec1, err1), r1) →
  csv.input r1 = csv.input (epssReader rest) →
  reads_until (afterHeader F) recs (epssReader (line +:+ String Bytes.LF rest)) →
  Forall (λ rec, ∃ score, ParseFloat (field rec 1) = Ok score) recs →
  parseEPSSScoresFile ParseFloat (Ok (line +:+ String Bytes.LF rest)) =
    parseEPSSScoresFile ParseFloat (Ok (other +:+ String Bytes.LF rest)) ∧
  parseEPSSScoresFile ParseFloat (Ok F) = ([], Some e).
Proof.
  intros HR He Hin HR1 Hin1 Hreads Hall. split.
  - destruct (parse_resumes _ _ _ _ _ HR Hin) as [_ ->].
    by destruct (parse_resumes _ _ _ _ _ HR1 Hin1) as [_ ->].
  - rewrite parse_unfold.
    eapply parseLoop_fatal_after; [done|apply afterHeader_settings|done..|lia].
Qed.

End parseEPSSScoresFile_facts.

(** * Properties of the heap *)

Section heap_facts.
Context {A : Type}.
Implicit Types (cells more : list A) (p : option ptr).

Lemma inHeap_None cells : inHeap cells None.
Proof. by intros a. Qed.

Lemma inHeap_app cells more p :
  inHeap cells p → inHeap (cells ++ more) p.
Proof. intros H a Ha. rewrite length_app. specialize (H a Ha). lia. Qed.

Lemma inHeap_new cells x : inHeap (cells ++ [x]) (Some (length cells)).
Proof. intros a [= <-]. rewrite length_app. simpl. lia. Qed.

Lemma load_app cells more p :
  inHeap cells p → p ≫= ((cells ++ more) !!.) = p ≫= (cells !!.).
Proof. destruct p as [a|]; [|done]. intros H. simpl. apply lookup_app_l. by apply H. Qed.

Lemma load_new cells x : (cells ++ [x]) !! length cells = Some x.
Proof. rewrite lookup_app_r by lia. by rewrite Nat.sub_diag. Qed.

Lemma load_is_Some cells p :
  inHeap cells p → (p ≫= (cells !!.) = None ↔ p = None).
Proof.
  destruct p as [a|]; [|done]. intros H. simpl. split; [|done].
  intros Hn. apply lookup_ge_None in Hn. specialize (H a eq_refl). lia.
Qed.
End heap_facts.

Create HintDb heap.
#[global] Hint Resolve inHeap_None inHeap_app inHeap_new : heap.

(** The five facts [valid] gives about the record found by [Hm]. *)
Ltac valid_at Hv Hm :=
  let H := fresh in
  pose proof (Hv _ _ Hm) as H; destruct H as (? & ? & ? & ? & ?).

(** * Properties of the merge *)

Section merge_facts.
Context {Time : Type}.
Variable time_Parse : string → string → result Time.
Variable publishedDateFmt : string.

Implicit Types (st : state Time) (h : heap Time) (v : values Time).
Implicit Types (meta score : fleet.CVEMeta) (k cve : string).

Local Abbreviation seedValue := (seedValue time_Parse publishedDateFmt).
Local Abbreviation badDate := (badDate time_Parse publishedDateFmt).
Local Abbreviation overlaid := (overlaid time_Parse publishedDateFmt).

Lemma canonical_lookup st k :
  canonical st !! k = deref (mem st) <$> metaMap st !! k.
Proof. unfold canonical. apply lookup_fmap. Qed.

Lemma valid_initial : valid (Time:=Time) initial.
Proof. intros k meta. unfold initial. simpl. by rewrite lookup_empty. Qed.

Lemma canonical_initial : canonical (Time:=Time) initial = ∅.
Proof. unfold canonical, initial. simpl. apply fmap_empty. Qed.

(** *** load cvss scores *)

(** The three ways an iteration ends, told from the entry. *)
Lemma cvssBody_Panics st cve schema p :
  cvssBody time_Parse publishedDateFmt st cve schema = Panics p ↔
  nilDereference schema = true.
Proof.
  unfold cvssBody, nilDereference. destruct p.
  destruct (Impact schema) as [[[[[[s]|]]|]]|]; simpl; try done.
  by destruct (time_Parse _ _).
Qed.

Lemma cvssBody_Fail st cve schema err :
  cvssBody time_Parse publishedDateFmt st cve schema = Fail err ↔
  is_Some (baseScoreV3 schema) ∧
  ∃ e, time_Parse publishedDateFmt (PublishedDate schema) = Fail e ∧
       err = Errorf "parse published_date" e.
Proof.
  unfold cvssBody, baseScoreV3.
  destruct (Impact schema) as [[[[[[s]|]]|]]|]; simpl;
    try (split; [done|by intros [[? ?] _]]).
  destruct (time_Parse _ _) as [t|e]; split.
  - done.
  - by intros (_ & e & ? & _).
  - intros [= <-]. eauto.
  - intros (_ & e' & [= <-] & ->). done.
Qed.

Lemma badDate_sound schema : badDate schema → nilDereference schema = false.
Proof.
  unfold badDate, baseScoreV3, nilDereference.
  destruct (Impact schema) as [[[[[[s]|]]|]]|]; simpl; try done; by intros [[? ?] _].
Qed.

Lemma badDate_illDated schema : badDate schema → illDated time_Parse publishedDateFmt schema.
Proof.
  unfold badDate, illDated, baseScoreV3, blockV3.
  by destruct (Impact schema) as [[[[[[s]|]]|]]|]; simpl; intros [[x Hx] He].
Qed.

(** An entry with a version-3 block and a date that does not parse
    stops the loop, by the error or by a panic. *)
Lemma illDated_stops schema :
  illDated time_Parse publishedDateFmt schema → badDate schema ∨ nilDereference schema = true.
Proof.
  unfold badDate, illDated, baseScoreV3, blockV3, nilDereference.
  destruct (Impact schema) as [[[[[[s]|]]|]]|]; simpl; intros [[? ?] ?]; try done; eauto.
Qed.

Lemma cvssBody_Ok st cve schema st' :
  cvssBody time_Parse publishedDateFmt st cve schema = Ok st' → valid st →
  valid st' ∧
  canonical st' =
    match seedValue cve schema with
    | Some v => <[cve := v]> (canonical st)
    | None => canonical st
    end.
Proof.
  unfold cvssBody, seedValue, baseScoreV3.
  destruct (Impact schema) as [[[[[[s]|]]|]]|]; simpl; try done; [|by intros [= <-]].
  destruct (time_Parse _ _) as [t|e]; [|done].
  intros [= <-] Hv. split.
  - intros k meta. simpl. rewrite lookup_insert. case_decide as Hk.
    + intros [= <-]. simpl. subst k.
      split_and!; [done|apply inHeap_new|apply inHeap_None..|apply inHeap_new].
    + intros Hm. valid_at Hv Hm.
      split_and!; [done|by apply inHeap_app..|done|by apply inHeap_app].
  - apply map_eq. intros k. rewrite canonical_lookup. simpl.
    rewrite !lookup_insert. case_decide as Hk.
    + simpl. unfold deref, loadFloat, loadTime, loadBool. simpl.
      by rewrite !load_new.
    + rewrite canonical_lookup. destruct (metaMap st !! k) as [meta|] eqn:Hm; [|done].
      simpl. valid_at Hv Hm.
      unfold deref, loadFloat, loadTime, loadBool. simpl.
      by rewrite !load_app.
Qed.

Lemma cvssLoop_spec entries :
  NoDup entries.*1 → ∀ st st',
  cvssLoop time_Parse publishedDateFmt entries st = Ok st' → valid st →
  valid st' ∧
  ∀ k, canonical st' !! k =
    match (list_to_map entries : gmap string Vuln) !! k ≫= seedValue k with
    | Some v => Some v
    | None => canonical st !! k
    end.
Proof.
  induction entries as [|[cve schema] entries IH]; intros Hnd st st'; simpl.
  - intros [= <-] Hv. split; [done|]. intros k. by rewrite lookup_empty.
  - destruct (cvssBody _ _ st cve schema) as [[st1|]|] eqn:Hb; [|done..].
    intros Hloop Hv. apply NoDup_cons in Hnd as [Hnotin Hnd].
    destruct (cvssBody_Ok _ _ _ _ Hb Hv) as [Hv1 Hc1].
    destruct (IH Hnd _ _ Hloop Hv1) as [Hv' Hc']. split; [done|].
    intros k. rewrite Hc', Hc1. rewrite lookup_insert. case_decide as Hk.
    + subst k. rewrite (not_elem_of_list_to_map_1 _ cve Hnotin). simpl.
      destruct (seedValue cve schema); [by rewrite lookup_insert_eq|done].
    + destruct (list_to_map entries !! k ≫= seedValue k); [done|].
      destruct (seedValue cve schema); [by rewrite lookup_insert_ne|done].
Qed.

(** The loop returns an error only for a date, and panics only on an
    entry with a [nil] on the path to the score. *)
Lemma cvssLoop_Fail_inv entries st err :
  cvssLoop time_Parse publishedDateFmt entries st = Fail err →
  (∃ e, err = Errorf "parse published_date" e) ∧
  ∃ k schema, (k, schema) ∈ entries ∧ badDate schema.
Proof.
  revert st. induction entries as [|[cve schema] entries IH]; intros st; simpl; [done|].
  destruct (cvssBody _ _ st cve schema) as [[st1|e]|p] eqn:Hb; [| |done].
  - intros Hl. destruct (IH _ Hl) as (He & k & s & Hin & Hbad).
    split; [done|]. exists k, s. split; [by right|done].
  - intros [= <-]. apply cvssBody_Fail in Hb as (Hv3 & e' & He & ->).
    split; [eauto|]. exists cve, schema. split; [by left|]. split; eauto.
Qed.

Lemma cvssLoop_Panics_inv entries st p :
  cvssLoop time_Parse publishedDateFmt entries st = Panics p →
  ∃ k schema, (k, schema) ∈ entries ∧ nilDereference schema = true.
Proof.
  revert st. induction entries as [|[cve schema] entries IH]; intros st; simpl; [done|].
  destruct (cvssBody _ _ st cve schema) as [[st1|e]|p'] eqn:Hb; [|done|].
  - intros Hl. destruct (IH _ Hl) as (k & s & Hin & Hnil). exists k, s. split; [by right|done].
  - intros _. apply cvssBody_Panics in Hb. exists cve, schema. split; [by left|done].
Qed.

(** An entry that stops an iteration keeps the loop from completing,
    wherever it stands. *)
Lemma cvssLoop_stops entries st k schema :
  (k, schema) ∈ entries → badDate schema ∨ nilDereference schema = true →
  ∀ st', cvssLoop time_Parse publishedDateFmt entries st ≠ Ok st'.
Proof.
  intros Hin Hstop. revert st.
  induction entries as [|[cve schema0] entries IH]; intros st st'; [by apply elem_of_nil in Hin|].
  simpl. destruct (cvssBody _ _ st cve schema0) as [[st1|err]|p] eqn:Hb; [|done..].
  apply elem_of_cons in Hin as [[= -> ->]|Hin]; [|by apply IH].
  destruct Hstop as [[Hv3 [e He]]|Hnil].
  - assert (cvssBody time_Parse publishedDateFmt st cve schema0 =
            Fail (Errorf "parse published_date" e)) as Hf
      by (apply cvssBody_Fail; eauto).
    congruence.
  - apply (cvssBody_Panics st cve schema0 NilDereference) in Hnil. congruence.
Qed.


Lemma cvssLoop_good entries st :
  (∀ k schema, (k, schema) ∈ entries → ¬ badDate schema ∧ nilDereference schema = false) →
  ∃ st', cvssLoop time_Parse publishedDateFmt entries st = Ok st'.
Proof.
  intros Hgood.
  destruct (cvssLoop _ _ entries st) as [[st'|err]|p] eqn:Hl; [eauto| |].
  - apply cvssLoop_Fail_inv in Hl as (_ & k & schema & Hin & Hbad).
    by destruct (Hgood k schema Hin) as [[] _].
  - apply cvssLoop_Panics_inv in Hl as (k & schema & Hin & Hnil).
    destruct (Hgood k schema Hin) as [_ Hs]. congruence.
Qed.

(** *** load epss scores *)

Lemma epssBody_unfold p st elem :
  epssBody p st elem =
    {| mem := storeFloat p (Score elem) (mem st);
       metaMap := <[CVE elem := scored p (CVE elem) (metaMap st !! CVE elem)]> (metaMap st) |}.
Proof. unfold epssBody, lookup2, scored. by destruct (metaMap st !! CVE elem). Qed.

Lemma scored_idem p k found : scored p k (Some (scored p k found)) = scored p k found.
Proof. by destruct found. Qed.

(** The loop from [st0], the state in which the loop variable exists:
    only the cell [p] of the heap changes, it ends holding the score of
    the last element, and the records of the identifiers listed point to
    it. *)
Lemma epssLoop_spec p epssScores st0 :
  let st' := foldl (epssBody p) st0 epssScores in
  length (floats (mem st')) = length (floats (mem st0)) ∧
  bools (mem st') = bools (mem st0) ∧
  times (mem st') = times (mem st0) ∧
  (∀ q, q ≠ p → floats (mem st') !! q = floats (mem st0) !! q) ∧
  (∀ elem, (p < length (floats (mem st0)))%nat → last epssScores = Some elem →
     floats (mem st') !! p = Some (Score elem)) ∧
  (∀ k, metaMap st' !! k =
     if decide (k ∈ CVE <$> epssScores) then Some (scored p k (metaMap st0 !! k))
     else metaMap st0 !! k).
Proof.
  induction epssScores as [|elem l IH] using rev_ind; simpl.
  - by split_and!.
  - rewrite foldl_app. simpl. rewrite epssBody_unfold.
    destruct IH as (Hlen & Hb & Ht & Hother & _ & Hmap). simpl.
    split_and!; try done.
    + by rewrite length_insert.
    + intros q Hq. by rewrite list_lookup_insert_ne, Hother.
    + intros e Hp. rewrite last_snoc. intros [= <-].
      apply list_lookup_insert_eq. by rewrite Hlen.
    + intros k. rewrite fmap_app. simpl. rewrite lookup_insert. case_decide as Hk.
      * subst k. rewrite decide_True by (apply elem_of_app; right; by left).
        rewrite Hmap. destruct (decide _); [by rewrite scored_idem|done].
      * rewrite Hmap. case_decide as Hin.
        -- by rewrite decide_True by (apply elem_of_app; by left).
        -- rewrite decide_False; [done|].
           rewrite elem_of_app, list_elem_of_singleton. by intros [?| ->].
Qed.

(** The pass as a whole.  Every identifier listed ends with a record
    whose probability reads the score of the LAST element of the whole
    sequence; the fields the first loop wrote are as they were. *)
Lemma loadEPSS_spec epssScores st :
  valid st →
  valid (loadEPSS epssScores st) ∧
  ∀ k, canonical (loadEPSS epssScores st) !! k =
    if decide (k ∈ CVE <$> epssScores)
    then Some (withProbability (Score <$> last epssScores)
                 (default (fresh k) (canonical st !! k)))
    else canonical st !! k.
Proof.
  intros Hv. unfold loadEPSS. simpl.
  set (p := length (floats (mem st))).
  set (st0 := {| mem := _; metaMap := metaMap st |}).
  destruct (epssLoop_spec p epssScores st0) as (Hlen & Hb & Ht & Hother & Hlast & Hmap).
  set (st' := foldl (epssBody p) st0 epssScores) in *.
  assert (length (floats (mem st0)) = S p) as Hlen0
    by (simpl; rewrite length_app; simpl; lia).
  assert (∀ q, inHeap (floats (mem st)) q → loadFloat (mem st') q = loadFloat (mem st) q)
    as Hold.
  { intros [q|] Hq; [|done]. specialize (Hq q eq_refl). unfold loadFloat. simpl.
    rewrite Hother by (unfold p; lia). simpl. by apply lookup_app_l. }
  assert (∀ q, inHeap (floats (mem st)) q → inHeap (floats (mem st')) q) as Hkeep.
  { intros q Hq a Ha. specialize (Hq a Ha). rewrite Hlen, Hlen0. unfold p. lia. }
  assert (inHeap (floats (mem st')) (Some p)) as Hp.
  { intros a [= <-]. rewrite Hlen, Hlen0. lia. }
  split.
  - intros k meta. rewrite Hmap. simpl. case_decide.
    + intros [= <-]. simpl. rewrite Hb, Ht. simpl.
      destruct (metaMap st !! k) as [meta|] eqn:Hm; simpl.
      * valid_at Hv Hm. split_and!; auto.
      * split_and!; auto with heap.
    + intros Hm. valid_at Hv Hm.
      rewrite Hb, Ht. simpl. split_and!; auto.
  - intros k. rewrite !canonical_lookup, Hmap. simpl. case_decide as Hin.
    + assert (∃ elem, last epssScores = Some elem) as [elem Hl].
      { apply last_is_Some. intros ->. by apply elem_of_nil in Hin. }
      rewrite Hl. simpl. f_equal. unfold deref, withProbability. simpl.
      unfold loadFloat at 2. simpl. rewrite (Hlast elem ltac:(lia) Hl).
      unfold loadBool, loadTime. rewrite Hb, Ht. simpl.
      destruct (metaMap st !! k) as [meta|] eqn:Hm; simpl; [|done].
      destruct (Hv k meta Hm) as (? & HC & ? & ? & ?).
      by rewrite Hold.
    + destruct (metaMap st !! k) as [meta|] eqn:Hm; simpl; [|done].
      destruct (Hv k meta Hm) as (? & HC & HE & ? & ?).
      f_equal. unfold deref. rewrite !Hold by done.
      unfold loadBool, loadTime. by rewrite Hb, Ht.
Qed.

(** *** load known exploits *)

Lemma withKnown_idem b v : withKnown b (withKnown b v) = withKnown b v.
Proof. done. Qed.

(** One iteration: the record of the identifier is fetched or created
    and marked; the rest of the mapping stays. *)
Lemma exploitBody_spec st vuln :
  valid st →
  valid (exploitBody st vuln) ∧
  canonical (exploitBody st vuln) =
    <[CVEID vuln := withKnown (Some true)
                      (default (fresh (CVEID vuln)) (canonical st !! CVEID vuln))]>
      (canonical st).
Proof.
  intros Hv. unfold exploitBody, lookup2. split.
  - intros k meta.
    destruct (metaMap st !! CVEID vuln) as [found|] eqn:Hf; simpl;
      rewrite lookup_insert; case_decide as Hk.
    + intros [= <-]. simpl. subst k.
      valid_at Hv Hf.
      split_and!; auto with heap.
    + intros Hm. valid_at Hv Hm.
      split_and!; auto with heap.
    + intros [= <-]. simpl. split_and!; auto with heap.
    + intros Hm. valid_at Hv Hm.
      split_and!; auto with heap.
  - apply map_eq. intros k. rewrite canonical_lookup.
    assert (∀ meta, metaMap st !! k = Some meta →
      deref {| floats := floats (mem st); bools := bools (mem st) ++ [true];
               times := times (mem st) |} meta = deref (mem st) meta) as Hold.
    { intros meta Hm. valid_at Hv Hm.
      unfold deref, loadBool. simpl. by rewrite load_app. }
    destruct (metaMap st !! CVEID vuln) as [found|] eqn:Hf; simpl;
      rewrite !lookup_insert; case_decide as Hk.
    + simpl. f_equal. rewrite canonical_lookup, Hf. simpl.
      unfold deref, withKnown, loadBool. simpl. by rewrite load_new.
    + rewrite canonical_lookup. destruct (metaMap st !! k) as [meta|] eqn:Hm; [|done].
      simpl. f_equal. by apply Hold.
    + simpl. f_equal. rewrite canonical_lookup, Hf. simpl.
      unfold deref, withKnown, loadBool. simpl. by rewrite load_new.
    + rewrite canonical_lookup. destruct (metaMap st !! k) as [meta|] eqn:Hm; [|done].
      simpl. f_equal. by apply Hold.
Qed.

Lemma loadKnownExploits_spec catalog st :
  valid st →
  valid (loadKnownExploits catalog st) ∧
  ∀ k, canonical (loadKnownExploits catalog st) !! k =
    if decide (k ∈ CVEID <$> Vulnerabilities catalog)
    then Some (withKnown (Some true) (default (fresh k) (canonical st !! k)))
    else canonical st !! k.
Proof.
  intros Hv. unfold loadKnownExploits.
  induction (Vulnerabilities catalog) as [|vuln l [IHv IHc]] using rev_ind; [done|].
  rewrite foldl_app. simpl.
  destruct (exploitBody_spec (foldl exploitBody st l) vuln IHv) as [Hv' Hc'].
  split; [done|]. intros k. rewrite Hc', fmap_app. simpl.
  rewrite lookup_insert. case_decide as Hk.
  - subst k. rewrite decide_True by (apply elem_of_app; right; by left).
    rewrite IHc. by destruct (decide _).
  - rewrite IHc. destruct (decide (k ∈ CVEID <$> l)) as [Hin|Hin].
    + by rewrite decide_True by (apply elem_of_app; by left).
    + rewrite decide_False; [done|].
      rewrite elem_of_app, list_elem_of_singleton. by intros [?| ->].
Qed.

(** *** known exploit set to false for all other CVEs *)

Lemma fillBody_spec st cve meta :
  valid st → metaMap st !! cve = Some meta →
  valid (fillBody st (cve, meta)) ∧
  canonical (fillBody st (cve, meta)) = <[cve := fillValue (deref (mem st) meta)]> (canonical st) ∧
  ∀ k, k ≠ cve → metaMap (fillBody st (cve, meta)) !! k = metaMap st !! k.
Proof.
  intros Hv Hcve. destruct (Hv _ _ Hcve) as (Hid & HC & HE & HK & HP).
  unfold fillBody. destruct (fleet.CISAKnownExploit meta) as [pk|] eqn:Hk; simpl.
  - rewrite (insert_id (metaMap st)) by done.
    destruct st as [h m]. simpl in *. split; [done|]. split; [|done].
    assert (∃ b, knownExploited (deref h meta) = Some b) as [b Hb].
    { unfold deref, loadBool. simpl. rewrite Hk. simpl.
      apply lookup_lt_is_Some_2, HK. done. }
    unfold fillValue. rewrite Hb. symmetry. apply insert_id. rewrite canonical_lookup. simpl.
    by rewrite Hcve.
  - split; [|split].
    + intros k r. simpl. rewrite lookup_insert. case_decide as Hkk.
      * intros [= <-]. simpl. split_and!; auto with heap; congruence.
      * intros Hm. valid_at Hv Hm.
        split_and!; auto with heap.
    + apply map_eq. intros k. rewrite canonical_lookup. simpl.
      rewrite !lookup_insert. case_decide as Hkk.
      * simpl. f_equal. unfold fillValue, deref, withKnown, loadBool. simpl.
        rewrite Hk. simpl. by rewrite load_new.
      * rewrite canonical_lookup. destruct (metaMap st !! k) as [r|] eqn:Hm; [|done].
        simpl. f_equal. valid_at Hv Hm.
        unfold deref, loadBool. simpl. by rewrite load_app.
    + intros k Hne. simpl. by rewrite lookup_insert_ne.
Qed.

Lemma fillValue_idem v : fillValue (fillValue v) = fillValue v.
Proof. unfold fillValue. by destruct (knownExploited v) eqn:Hk; simpl; rewrite ?Hk. Qed.

Lemma fillLoop_spec entries :
  NoDup entries.*1 → ∀ st, valid st →
  (∀ k meta, (k, meta) ∈ entries → metaMap st !! k = Some meta) →
  valid (foldl fillBody st entries) ∧
  ∀ k, canonical (foldl fillBody st entries) !! k =
    if decide (k ∈ entries.*1) then fillValue <$> canonical st !! k
    else canonical st !! k.
Proof.
  induction entries as [|[cve meta] entries IH]; intros Hnd st Hv Hsnap; [done|].
  apply NoDup_cons in Hnd as [Hnotin Hnd]. simpl in *.
  assert (metaMap st !! cve = Some meta) as Hcve by (apply Hsnap; left).
  destruct (fillBody_spec st cve meta Hv Hcve) as (Hv1 & Hc1 & Hm1).
  destruct (IH Hnd (fillBody st (cve, meta)) Hv1) as [Hv' Hc'].
  { intros k r Hin. rewrite Hm1; [apply Hsnap; by right|].
    intros ->. apply Hnotin. apply list_elem_of_fmap. by exists (cve, r). }
  split; [done|]. intros k. rewrite Hc', Hc1.
  destruct (decide (k = cve)) as [->|Hne].
  - rewrite decide_False by done. rewrite decide_True by left.
    rewrite lookup_insert_eq, canonical_lookup, Hcve. done.
  - rewrite lookup_insert_ne by done.
    destruct (decide (k ∈ entries.*1)) as [Hin|Hin].
    + by rewrite decide_True by (by right).
    + rewrite decide_False; [done|]. by intros [?|?]%elem_of_cons.
Qed.

Section with_orders.

Variable dictOrder : MapOrder Vuln.
Variable fillOrder : MapOrder fleet.CVEMeta.

Lemma range_elem_of {V} (o : MapOrder V) (m : gmap string V) k x :
  (k, x) ∈ range o m ↔ m !! k = Some x.
Proof. rewrite (range_perm o m). apply elem_of_map_to_list. Qed.

Lemma range_NoDup {V} (o : MapOrder V) (m : gmap string V) : NoDup (range o m).*1.
Proof. rewrite (range_perm o m). apply NoDup_fst_map_to_list. Qed.

Lemma range_to_map {V} (o : MapOrder V) (m : gmap string V) :
  list_to_map (range o m) = m.
Proof.
  rewrite <-(list_to_map_to_list m) at 2.
  apply list_to_map_proper; [apply range_NoDup|apply range_perm].
Qed.

(** The first loop, when it completes: one record per entry with a
    version-3 block, holding its score and date. *)
Lemma loadCVSS_spec dict st :
  loadCVSS time_Parse publishedDateFmt dictOrder dict = Ok st →
  valid st ∧ canonical st = map_imap seedValue dict.
Proof.
  unfold loadCVSS. intros Hloop.
  destruct (cvssLoop_spec _ (range_NoDup dictOrder dict) _ _ Hloop valid_initial)
    as [Hv Hc].
  split; [done|]. apply map_eq. intros k.
  rewrite Hc, range_to_map, map_lookup_imap, canonical_initial, lookup_empty.
  by destruct (dict !! k ≫= seedValue k).
Qed.


Lemma loadCVSS_stops dict k schema :
  dict !! k = Some schema → badDate schema ∨ nilDereference schema = true →
  ∀ st, loadCVSS time_Parse publishedDateFmt dictOrder dict ≠ Ok st.
Proof. intros Hk Hstop. eapply cvssLoop_stops; [by apply range_elem_of|done]. Qed.

Lemma loadCVSS_Fail_inv dict err :
  loadCVSS time_Parse publishedDateFmt dictOrder dict = Fail err →
  (∃ e, err = Errorf "parse published_date" e) ∧
  ∃ k schema, dict !! k = Some schema ∧ badDate schema.
Proof.
  intros Hl. apply cvssLoop_Fail_inv in Hl as (He & k & schema & Hin & Hbad).
  split; [done|]. exists k, schema. by apply range_elem_of in Hin.
Qed.

Lemma loadCVSS_Panics_inv dict p :
  loadCVSS time_Parse publishedDateFmt dictOrder dict = Panics p →
  ∃ k schema, dict !! k = Some schema ∧ nilDereference schema = true.
Proof.
  intros Hl. apply cvssLoop_Panics_inv in Hl as (k & schema & Hin & Hnil).
  exists k, schema. by apply range_elem_of in Hin.
Qed.

(** The last pass: every record still without a known-exploited value
    gets [false]; nothing else changes. *)
Lemma fillDefaults_spec st :
  valid st →
  valid (fillDefaults fillOrder st) ∧
  canonical (fillDefaults fillOrder st) = fillValue <$> canonical st.
Proof.
  intros Hv. unfold fillDefaults.
  destruct (fillLoop_spec _ (range_NoDup fillOrder (metaMap st)) st Hv) as [Hv' Hc'].
  { intros k meta. apply range_elem_of. }
  split; [done|]. apply map_eq. intros k. rewrite Hc', lookup_fmap.
  case_decide as Hin; [done|].
  destruct (canonical st !! k) as [v|] eqn:Hk; [|done].
  rewrite canonical_lookup in Hk.
  destruct (metaMap st !! k) as [meta|] eqn:Hm; [|done].
  destruct Hin. apply list_elem_of_fmap. exists (k, meta).
  split; [done|]. by apply range_elem_of.
Qed.

Lemma loadCVSS_good dict :
  (∀ k schema, dict !! k = Some schema → ¬ badDate schema ∧ nilDereference schema = false) →
  ∃ st, loadCVSS time_Parse publishedDateFmt dictOrder dict = Ok st.
Proof.
  intros Hgood. apply cvssLoop_good. intros k s Hin.
  apply range_elem_of in Hin. eauto.
Qed.

(** *** The four passes together *)

Lemma mergeFeeds_spec dict epssScores catalog st :
  mergeFeeds time_Parse publishedDateFmt dictOrder fillOrder dict epssScores catalog = Ok st →
  valid st ∧ ∀ k, canonical st !! k = overlaid dict epssScores catalog k.
Proof.
  unfold mergeFeeds.
  destruct (loadCVSS _ _ _ dict) as [[st1|]|] eqn:H1; [|done..]. intros [= <-].
  destruct (loadCVSS_spec _ _ H1) as [Hv1 Hc1].
  destruct (loadEPSS_spec epssScores st1 Hv1) as [Hv2 Hc2].
  destruct (loadKnownExploits_spec catalog _ Hv2) as [Hv3 Hc3].
  destruct (fillDefaults_spec _ Hv3) as [Hv4 Hc4].
  split; [done|]. intros k.
  rewrite Hc4, lookup_fmap, Hc3, Hc2, Hc1, map_lookup_imap. done.
Qed.

Lemma mergeFeeds_good dict epssScores catalog :
  (∀ k schema, dict !! k = Some schema → ¬ badDate schema ∧ nilDereference schema = false) →
  ∃ st, mergeFeeds time_Parse publishedDateFmt dictOrder fillOrder dict epssScores catalog
          = Ok st.
Proof.
  intros Hgood. unfold mergeFeeds.
  destruct (loadCVSS_good dict Hgood) as [st1 ->]. eauto.
Qed.

Lemma seedValue_Some k schema v :
  seedValue k schema = Some v →
  id v = k ∧ severityScore v = baseScoreV3 schema ∧ is_Some (published v) ∧
  exploitProbability v = None ∧ knownExploited v = None.
Proof.
  unfold seedValue. destruct (baseScoreV3 schema); [|done].
  destruct (time_Parse _ _); [|done]. intros [= <-]. simpl. eauto.
Qed.

(** The records of the mapping are those of the identifiers the three
    inputs name. *)
Lemma overlaid_Some dict epssScores catalog k v :
  overlaid dict epssScores catalog k = Some v →
  id v = k ∧
  (is_Some (dict !! k ≫= seedValue k) ∨ k ∈ CVE <$> epssScores ∨
   k ∈ CVEID <$> Vulnerabilities catalog).
Proof.
  unfold overlaid. intros Hk.
  assert (∀ o : option (values Time), (∀ x, o = Some x → id x = k) →
            id (default (fresh k) o) = k) as Hdef
    by (intros [x|] Hx; [by apply Hx|done]).
  assert (∀ x, dict !! k ≫= seedValue k = Some x → id x = k) as Hseed.
  { intros x Hx. destruct (dict !! k) as [schema|]; [|done].
    by apply seedValue_Some in Hx as [? _]. }
  assert (∀ x : values Time, id (fillValue x) = id x) as Hfill
    by (intros x; unfold fillValue; by destruct (knownExploited x)).
  destruct (decide (k ∈ CVEID <$> _)) as [Hc|Hc]; simpl in Hk.
  - injection Hk as <-. split; [|by auto]. rewrite Hfill. simpl.
    apply Hdef. intros x. destruct (decide (k ∈ CVE <$> _)); [|by apply Hseed].
    intros [= <-]. simpl. by apply Hdef.
  - destruct (decide (k ∈ CVE <$> _)) as [He|He]; simpl in Hk.
    + injection Hk as <-. split; [|by auto]. rewrite Hfill. simpl. by apply Hdef.
    + destruct (dict !! k ≫= seedValue k) as [x|] eqn:Hx; [|done].
      injection Hk as <-. split; [|by eauto]. rewrite Hfill. by apply Hseed.
Qed.

Lemma overlaid_known dict epssScores catalog k v :
  overlaid dict epssScores catalog k = Some v →
  knownExploited v = Some (bool_decide (k ∈ CVEID <$> Vulnerabilities catalog)).
Proof.
  unfold overlaid. intros Hk.
  assert (∀ o : option (values Time), (∀ x, o = Some x → knownExploited x = None) →
            knownExploited (default (fresh k) o) = None) as Hdef
    by (intros [x|] Hx; [by apply Hx|done]).
  assert (∀ x, dict !! k ≫= seedValue k = Some x → knownExploited x = None) as Hseed.
  { intros x Hx. destruct (dict !! k) as [schema|]; [|done].
    by apply seedValue_Some in Hx as (_ & _ & _ & _ & ?). }
  destruct (decide (k ∈ CVEID <$> _)) as [Hc|Hc]; simpl in Hk.
  - injection Hk as <-. by rewrite bool_decide_eq_true_2.
  - rewrite bool_decide_eq_false_2 by done.
    destruct (decide (k ∈ CVE <$> _)) as [He|He]; simpl in Hk.
    + injection Hk as <-. unfold fillValue. simpl. by rewrite Hdef.
    + destruct (dict !! k ≫= seedValue k) as [x|] eqn:Hx; [|done].
      injection Hk as <-. unfold fillValue. by rewrite (Hseed x).
Qed.

(** *** Claims about the merge *)

(** C2. After the merge, at the point where the mapping is handed to
    the store, the known-exploited pointer of every record is not nil
    and leads to a boolean: [true] when the identifier is in the
    catalog, [false] when it is not. *)
Theorem known_exploited_always_set dict epssScores catalog st k meta :
  mergeFeeds time_Parse publishedDateFmt dictOrder fillOrder dict epssScores catalog = Ok st →
  metaMap st !! k = Some meta →
  ∃ p, fleet.CISAKnownExploit meta = Some p ∧
       bools (mem st) !! p =
         Some (bool_decide (k ∈ CVEID <$> Vulnerabilities catalog)).
Proof.
  intros Hmerge Hk. destruct (mergeFeeds_spec _ _ _ _ Hmerge) as [_ Hc].
  specialize (Hc k). rewrite canonical_lookup, Hk in Hc. simpl in Hc.
  symmetry in Hc. apply overlaid_known in Hc.
  unfold deref, loadBool in Hc. simpl in Hc.
  destruct (fleet.CISAKnownExploit meta) as [p|]; [|done]. eauto.
Qed.

(** C3, as the code has it.  In the scenario (severity feed: V-1 with
    score 7.5 and a date that parses to [t]; probability feed: V-1
    0.42, V-2 0.10; catalog: V-2) the merge produces exactly two
    records: V-1 with score 7.5, the date, SOME exploit probability
    and known-exploited false; V-2 with no score, no date, exploit
    probability 0.10 and known-exploited true. *)
Theorem scenario_merge date t :
  time_Parse publishedDateFmt date = Ok t →
  ∃ st p,
    mergeFeeds time_Parse publishedDateFmt dictOrder fillOrder
      {[ "V-1" := entryV3 7.5%float date ]}
      [ {| CVE := "V-1"; Score := 0.42%float |}; {| CVE := "V-2"; Score := 0.10%float |} ]
      {| Vulnerabilities := [ {| CVEID := "V-2" |} ] |} = Ok st ∧
    canonical st =
      {[ "V-1" := {| id := "V-1"; severityScore := Some 7.5%float; published := Some t;
                     exploitProbability := Some p; knownExploited := Some false |};
         "V-2" := {| id := "V-2"; severityScore := None; published := None;
                     exploitProbability := Some 0.10%float;
                     knownExploited := Some true |} ]}.
Proof.
  intros Hdate.
  set (dict := ({[ "V-1" := _ ]} : gmap string Vuln)).
  set (epssScores := [ _; _ ]). set (catalog := {| Vulnerabilities := _ |}).
  destruct (mergeFeeds_good dict epssScores catalog) as [st Hmerge].
  { intros k schema Hk. unfold dict in Hk.
    apply lookup_singleton_Some in Hk as [_ <-]. split; [|done].
    intros [_ [e He]]. simpl in He. congruence. }
  exists st, 0.10%float. split; [done|].
  destruct (mergeFeeds_spec _ _ _ _ Hmerge) as [_ Hc].
  apply map_eq. intros k. rewrite Hc. unfold overlaid, dict.
  destruct (decide (k = "V-1")) as [->|H1].
  { rewrite lookup_singleton_eq. simpl. unfold seedValue. simpl. by rewrite Hdate. }
  rewrite lookup_singleton_ne by done. rewrite lookup_insert_ne by done.
  destruct (decide (k = "V-2")) as [->|H2]; [done|].
  rewrite lookup_singleton_ne by done. simpl.
  assert (k ∉ ["V-1"; "V-2"]) as Hnot
    by (rewrite !elem_of_cons, elem_of_nil; by intros [?|[?|?]]).
  assert (k ∉ ["V-2"]) as Hnot'
    by (by intros [?|?%elem_of_nil]%elem_of_cons).
  rewrite decide_False by exact Hnot'.
  rewrite decide_False by exact Hnot.
  done.
Qed.

(** C7. Fields written by an earlier pass survive every later pass.
    The probability overlay leaves identifier, score, date and
    known-exploited of every record it finds as they were; the catalog
    overlay leaves identifier, score, date and probability as they
    were; the default fill leaves those and a known-exploited value
    already set.  A record an overlay creates for an identifier not
    yet in the mapping has its identifier and the overlay's own field,
    and nothing else. *)
Theorem overlays_preserve_earlier_fields dict epssScores catalog st1 :
  loadCVSS time_Parse publishedDateFmt dictOrder dict = Ok st1 →
  let st2 := loadEPSS epssScores st1 in
  let st3 := loadKnownExploits catalog st2 in
  let st4 := fillDefaults fillOrder st3 in
  (∀ k v1, canonical st1 !! k = Some v1 →
     ∃ v2, canonical st2 !! k = Some v2 ∧ id v2 = id v1 ∧
           severityScore v2 = severityScore v1 ∧ published v2 = published v1 ∧
           knownExploited v2 = knownExploited v1) ∧
  (∀ k v2, canonical st2 !! k = Some v2 →
     ∃ v3, canonical st3 !! k = Some v3 ∧ id v3 = id v2 ∧
           severityScore v3 = severityScore v2 ∧ published v3 = published v2 ∧
           exploitProbability v3 = exploitProbability v2) ∧
  (∀ k v3, canonical st3 !! k = Some v3 →
     ∃ v4, canonical st4 !! k = Some v4 ∧ id v4 = id v3 ∧
           severityScore v4 = severityScore v3 ∧ published v4 = published v3 ∧
           exploitProbability v4 = exploitProbability v3 ∧
           (∀ b, knownExploited v3 = Some b → knownExploited v4 = Some b)) ∧
  (∀ k, canonical st1 !! k = None → k ∈ CVE <$> epssScores →
     ∃ p, canonical st2 !! k = Some (withProbability p (fresh k))) ∧
  (∀ k, canonical st2 !! k = None → k ∈ CVEID <$> Vulnerabilities catalog →
     canonical st3 !! k = Some (withKnown (Some true) (fresh k))) ∧
  (∀ (m : gmap string fleet.CVEMeta) k, m !! k = None →
     lookup2 m k = (fleet.zero, false)).
Proof.
  intros H1 st2 st3 st4.
  destruct (loadCVSS_spec _ _ H1) as [Hv1 _].
  destruct (loadEPSS_spec epssScores st1 Hv1) as [Hv2 Hc2]. fold st2 in Hv2, Hc2.
  destruct (loadKnownExploits_spec catalog _ Hv2) as [Hv3 Hc3]. fold st3 in Hv3, Hc3.
  destruct (fillDefaults_spec _ Hv3) as [_ Hc4]. fold st4 in Hc4.
  split_and!.
  - intros k v1 Hk. rewrite Hc2, Hk. destruct (decide _); eauto 10.
  - intros k v2 Hk. rewrite Hc3, Hk. destruct (decide _); eauto 10.
  - intros k v3 Hk. rewrite Hc4, lookup_fmap, Hk. simpl.
    eexists; split; [done|]. unfold fillValue.
    destruct (knownExploited v3) eqn:Hb; simpl; split_and!; try done.
    by rewrite Hb.
  - intros k Hk Hin. rewrite Hc2, Hk, decide_True by done. eauto.
  - intros k Hk Hin. by rewrite Hc3, Hk, decide_True by done.
  - intros m k Hk. unfold lookup2. by rewrite Hk.
Qed.

(** C9, as the code has it.  Every record of the merged mapping
    carries the identifier it is stored under, that identifier is one
    the severity feed, the probability feed or the catalog supplied,
    and the records handed to the store, in whatever order, have
    pairwise different identifiers.  (Whether an identifier is empty
    is not checked anywhere: it is non-empty when the inputs' are.) *)
Theorem identifiers_keyed dict epssScores catalog st (sliceOrder : MapOrder fleet.CVEMeta) :
  mergeFeeds time_Parse publishedDateFmt dictOrder fillOrder dict epssScores catalog = Ok st →
  (∀ k meta, metaMap st !! k = Some meta →
     fleet.CVE meta = k ∧
     ((∃ schema, dict !! k = Some schema ∧ is_Some (baseScoreV3 schema)) ∨
      k ∈ CVE <$> epssScores ∨ k ∈ CVEID <$> Vulnerabilities catalog)) ∧
  NoDup (fleet.CVE <$> (range sliceOrder (metaMap st)).*2).
Proof.
  intros Hmerge. destruct (mergeFeeds_spec _ _ _ _ Hmerge) as [Hv Hc]. split.
  - intros k meta Hk. split; [by apply (Hv k meta Hk)|].
    specialize (Hc k). rewrite canonical_lookup, Hk in Hc. simpl in Hc.
    symmetry in Hc. apply overlaid_Some in Hc as [_ [[x Hx]|[?|?]]]; auto.
    left. destruct (dict !! k) as [schema|]; [|done]. exists schema. split; [done|].
    simpl in Hx. unfold seedValue in Hx. by destruct (baseScoreV3 schema).
  - replace (fleet.CVE <$> (range sliceOrder (metaMap st)).*2)
      with ((range sliceOrder (metaMap st)).*1); [apply range_NoDup|].
    rewrite <-list_fmap_compose. apply Forall_fmap_ext, Forall_forall.
    intros [k meta] Hin. apply range_elem_of in Hin. simpl.
    symmetry. by apply (Hv k meta Hin).
Qed.
End with_orders.
End merge_facts.

(** *** The parser on the sample files *)

Example parse_wellFormedFile :
  parseEPSSScoresFile Sample.ParseFloat (Ok Sample.wellFormedFile) =
    ([ {| CVE := "CVE-1"; Score := 0.5%float |}; {| CVE := "CVE-2"; Score := 0.25%float |} ],
     None).
Proof. vm_compute. reflexivity. Qed.

(** C1 on the code.  The file has a header, a good row, a row of two
    fields and another good row.  The reader, told to expect three fields
    per record, hands the short row over together with [ErrFieldCount];
    the loop returns that error before it reaches its test of the field
    count, and the scores of the good rows are lost. *)
Theorem short_row_aborts_parse :
  parseEPSSScoresFile Sample.ParseFloat (Ok Sample.shortRowFile) =
    ([], Some (ParseError ErrFieldCount)).
Proof. vm_compute. reflexivity. Qed.

Example parse_badScoreFile :
  parseEPSSScoresFile Sample.ParseFloat (Ok Sample.badScoreFile) =
    ([], Some (Errorf "parse epss score" (NumError "high"))).
Proof. vm_compute. reflexivity. Qed.

(** A malformed first line costs nothing; the same line in second place
    is fatal. *)
Example parse_shortHeaderFile :
  parseEPSSScoresFile Sample.ParseFloat (Ok Sample.shortHeaderFile) =
    ([ {| CVE := "CVE-1"; Score := 0.5%float |} ], None).
Proof. vm_compute. reflexivity. Qed.

Example parse_quotedHeaderFile :
  parseEPSSScoresFile Sample.ParseFloat (Ok Sample.quotedHeaderFile) =
    ([ {| CVE := "CVE-1"; Score := 0.5%float |} ], None).
Proof. vm_compute. reflexivity. Qed.

Example parse_shortSecondFile :
  parseEPSSScoresFile Sample.ParseFloat (Ok Sample.shortSecondFile) =
    ([], Some (ParseError ErrFieldCount)).
Proof. vm_compute. reflexivity. Qed.

Example parse_quotedSecondFile :
  parseEPSSScoresFile Sample.ParseFloat (Ok Sample.quotedSecondFile) =
    ([], Some (ParseError ErrBareQuote)).
Proof. vm_compute. reflexivity. Qed.

(** * Properties of LoadCVEMeta *)

Section LoadCVEMeta_facts.
Context {Time : Type}.
Variable time_Parse : string → string → result Time.
Variable publishedDateFmt : string.
Variable ParseFloat : string → result float64.
Variable dictOrder : MapOrder Vuln.
Variable fillOrder : MapOrder fleet.CVEMeta.
Variable sliceOrder : MapOrder fleet.CVEMeta.

Local Abbreviation run :=
  (LoadCVEMeta time_Parse publishedDateFmt ParseFloat dictOrder fillOrder sliceOrder).

(** The first loop completes with an empty mapping exactly when every
    entry has an impact without a version-3 block. *)
Lemma loadCVSS_empty_iff dict :
  (∃ st1, loadCVSS time_Parse publishedDateFmt dictOrder dict = Ok st1 ∧ metaMap st1 = ∅) ↔
  (∀ k schema, dict !! k = Some schema →
     ∃ impact, Impact schema = Some impact ∧ BaseMetricV3 impact = None).
Proof.
  split.
  - intros (st1 & H1 & Hempty) k schema Hk.
    destruct (loadCVSS_spec _ _ _ _ _ H1) as [_ Hc1].
    assert (seedValue time_Parse publishedDateFmt k schema = None) as Hseed.
    { apply (f_equal (λ m, m !! k)) in Hc1.
      rewrite canonical_lookup, Hempty, lookup_empty, map_lookup_imap, Hk in Hc1. done. }
    pose proof (loadCVSS_stops time_Parse publishedDateFmt dictOrder dict k schema Hk) as Hstop.
    unfold seedValue, badDate, baseScoreV3, nilDereference in *.
    destruct (Impact schema) as [[[[[[s]|]]|]]|]; simpl in *.
    + destruct (time_Parse _ _) as [t|e]; [done|].
      destruct (Hstop (or_introl (conj (mk_is_Some _ _ eq_refl) (ex_intro _ e eq_refl))) st1 H1).
    + destruct (Hstop (or_intror eq_refl) st1 H1).
    + eauto.
    + destruct (Hstop (or_intror eq_refl) st1 H1).
  - intros Hold.
    destruct (loadCVSS_good time_Parse publishedDateFmt dictOrder dict) as [st1 H1].
    { intros k schema Hk. destruct (Hold k schema Hk) as (impact & Hi & Hv3).
      unfold badDate, baseScoreV3, nilDereference. rewrite Hi. simpl. rewrite Hv3. simpl.
      split; [by intros [[? ?] _]|done]. }
    exists st1. split; [done|].
    destruct (loadCVSS_spec _ _ _ _ _ H1) as [_ Hc1].
    apply (fmap_empty_inv (deref (mem st1))). fold (canonical st1). rewrite Hc1.
    apply map_eq. intros k. rewrite map_lookup_imap, lookup_empty.
    destruct (dict !! k) as [schema|] eqn:Hk; [|done]. simpl.
    destruct (Hold k schema Hk) as (impact & Hi & Hv3).
    unfold seedValue, baseScoreV3. rewrite Hi. simpl. by rewrite Hv3.
Qed.

(** C8. When the three parsed inputs are empty (the first loop completes
    with no record, the score file yields no score, the catalog lists no
    vulnerability) [LoadCVEMeta] returns [nil] and never calls
    [InsertCVEMeta]. *)
Theorem empty_inputs_skip_store (w : World Time) files dict st1 b catalog :
  getNVDCVEFeedFiles w = Ok files →
  LoadJSONDictionary w files = Ok dict →
  loadCVSS time_Parse publishedDateFmt dictOrder dict = Ok st1 →
  metaMap st1 = ∅ →
  parseEPSSScoresFile ParseFloat (openEPSS w) = ([], None) →
  readCISA w = Ok b →
  Unmarshal w b = Ok catalog →
  Vulnerabilities catalog = [] →
  run w = {| ended := Returned None; inserts := [] |}.
Proof.
  intros Hfiles Hdict H1 Hempty1 Hparse Hread Hunm Hcat.
  destruct (loadCVSS_spec _ _ _ _ _ H1) as [Hv1 _].
  destruct (loadEPSS_spec [] st1 Hv1) as [Hv2 Hc2].
  destruct (loadKnownExploits_spec catalog _ Hv2) as [Hv3 Hc3].
  destruct (fillDefaults_spec fillOrder _ Hv3) as [_ Hc4].
  unfold LoadCVEMeta. rewrite Hfiles, Hdict, H1, Hparse, Hread, Hunm.
  set (st4 := fillDefaults fillOrder _) in *.
  assert (metaMap st4 = ∅) as Hempty.
  { apply (fmap_empty_inv (deref (mem st4))). fold (canonical st4). rewrite Hc4.
    apply map_eq. intros k. rewrite lookup_fmap, Hc3, Hcat, Hc2. simpl.
    by rewrite canonical_lookup, Hempty1, !lookup_empty. }
  rewrite Hempty, map_size_empty. done.
Qed.

(** With a mapping that is not empty the store is called once. *)
Lemma LoadCVEMeta_inserts (w : World Time) files dict epssScores b catalog st :
  getNVDCVEFeedFiles w = Ok files →
  LoadJSONDictionary w files = Ok dict →
  parseEPSSScoresFile ParseFloat (openEPSS w) = (epssScores, None) →
  readCISA w = Ok b →
  Unmarshal w b = Ok catalog →
  mergeFeeds time_Parse publishedDateFmt dictOrder fillOrder dict epssScores catalog = Ok st →
  metaMap st ≠ ∅ →
  inserts (run w) = [((range sliceOrder (metaMap st)).*2, mem st)].
Proof.
  intros Hfiles Hdict Hparse Hread Hunm Hmerge Hne.
  unfold mergeFeeds in Hmerge.
  destruct (loadCVSS _ _ _ dict) as [[st1|]|] eqn:H1; [|done..]. injection Hmerge as Hst.
  unfold LoadCVEMeta. rewrite Hfiles, Hdict, H1, Hparse, Hread, Hunm, Hst.
  destruct (size (metaMap st) =? 0)%nat eqn:Hsize.
  - apply Nat.eqb_eq, map_size_empty_inv in Hsize. done.
  - by destruct (InsertCVEMeta w _ _).
Qed.
End LoadCVEMeta_facts.

(** * The shared loop variable *)

Section loop_variable.
Context {Time : Type}.
Implicit Types (st : state Time) (k : string).

(** What the code does: every record the second loop touched reads, at
    the end of the loop, the score of the last element of the whole
    sequence. *)
Lemma loadEPSS_reads_last epssScores st k v :
  valid st → k ∈ CVE <$> epssScores →
  canonical (loadEPSS epssScores st) !! k = Some v →
  exploitProbability v = Score <$> last epssScores.
Proof.
  intros Hv Hin. destruct (loadEPSS_spec epssScores st Hv) as [_ Hc].
  rewrite Hc, decide_True by done. by intros [= <-].
Qed.

Lemma epssBodyPerIteration_spec st elem :
  valid st →
  valid (epssBodyPerIteration st elem) ∧
  canonical (epssBodyPerIteration st elem) =
    <[CVE elem := withProbability (Some (Score elem))
                    (default (fresh (CVE elem)) (canonical st !! CVE elem))]>
      (canonical st).
Proof.
  intros Hv. unfold epssBodyPerIteration. simpl. split.
  - intros k meta. simpl. rewrite lookup_insert. case_decide as Hk.
    + intros [= <-]. subst k. simpl.
      destruct (metaMap st !! CVE elem) as [found|] eqn:Hf; simpl.
      * valid_at Hv Hf.
        split_and!; auto with heap.
      * split_and!; auto with heap.
    + intros Hm. valid_at Hv Hm.
      split_and!; auto with heap.
  - apply map_eq. intros k. rewrite canonical_lookup. simpl.
    rewrite !lookup_insert. case_decide as Hk.
    + simpl. f_equal. rewrite canonical_lookup.
      unfold deref, withProbability, loadFloat. simpl. rewrite load_new.
      destruct (metaMap st !! CVE elem) as [found|] eqn:Hf; simpl; [|done].
      valid_at Hv Hf.
      fold (loadFloat (mem st) (fleet.CVSSScore found)). unfold loadFloat.
      by rewrite load_app.
    + rewrite canonical_lookup. destruct (metaMap st !! k) as [meta|] eqn:Hm; [|done].
      simpl. f_equal. valid_at Hv Hm.
      unfold deref, loadFloat. simpl. by rewrite !load_app.
Qed.

(** With a variable per iteration the last pair of an identifier wins. *)
Lemma loadEPSSPerIteration_spec epssScores st :
  valid st →
  valid (loadEPSSPerIteration epssScores st) ∧
  ∀ k, canonical (loadEPSSPerIteration epssScores st) !! k =
    match lastFor k epssScores with
    | Some elem =>
        Some (withProbability (Some (Score elem)) (default (fresh k) (canonical st !! k)))
    | None => canonical st !! k
    end.
Proof.
  intros Hv. unfold loadEPSSPerIteration, lastFor.
  induction epssScores as [|elem l [IHv IHc]] using rev_ind; [done|].
  rewrite foldl_app. simpl.
  destruct (epssBodyPerIteration_spec (foldl epssBodyPerIteration st l) elem IHv)
    as [Hv' Hc'].
  split; [done|]. intros k. rewrite Hc', filter_app, lookup_insert.
  case_decide as Hk.
  - subst k. rewrite filter_cons_True by done. rewrite filter_nil, last_snoc. f_equal.
    rewrite IHc. by destruct (last _).
  - rewrite filter_cons_False by done. rewrite filter_nil, app_nil_r. apply IHc.
Qed.
End loop_variable.

(** C6 on the code.  The rows (V-1, 0.2), (V-1, 0.9), (V-2, 0.5): the
    last pair for V-1 carries 0.9, yet the record of V-1 ends reading
    0.5, the score of the last row of all, because every record points to
    the one loop variable. *)
Theorem last_row_overwrites_all :
  exploitProbability <$>
    canonical (loadEPSS (Time:=string) Sample.duplicateScores initial) !! "V-1"
  = Some (Some 0.5%float).
Proof. vm_compute. reflexivity. Qed.

(** With a variable per iteration the same rows leave 0.9 with V-1. *)
Example last_pair_wins_per_iteration :
  exploitProbability <$>
    canonical (loadEPSSPerIteration (Time:=string) Sample.duplicateScores initial) !! "V-1"
  = Some (Some 0.9%float).
Proof. vm_compute. reflexivity. Qed.

(** C5 on the code.  The dictionary holds V-3, an entry with a
    version-3 block and the date 01/01/2021, which does not parse, and
    V-0, an entry without an impact.  The loop comes to V-0 first, the
    selection [schema.Impact.BaseMetricV3] panics on the nil [Impact],
    and [LoadCVEMeta] does not return the error of the date: it does not
    return. *)
Theorem impactless_entry_panics :
  LoadCVEMeta Sample.time_Parse Sample.publishedDateFmt Sample.ParseFloat
    SampleSync.reversedOrder listedOrder listedOrder
    (Sample.world Sample.impactlessDict Sample.wellFormedFile Sample.scenarioCatalog) =
  {| ended := Panicked NilDereference; inserts := [] |}.
Proof. vm_compute. reflexivity. Qed.

(** Walked the other way round the same dictionary gives the error. *)
Example impactless_entry_after_date :
  LoadCVEMeta Sample.time_Parse Sample.publishedDateFmt Sample.ParseFloat
    listedOrder listedOrder listedOrder
    (Sample.world Sample.impactlessDict Sample.wellFormedFile Sample.scenarioCatalog) =
  {| ended := Returned (Some (Errorf "parse published_date" (TimeParseError "01/01/2021")));
     inserts := [] |}.
Proof. vm_compute. reflexivity. Qed.

(** A version-3 block without its CVSS data panics ahead of the date,
    in a dictionary of one entry. *)
Example scoreless_entry_panics :
  LoadCVEMeta Sample.time_Parse Sample.publishedDateFmt Sample.ParseFloat
    listedOrder listedOrder listedOrder
    (Sample.world Sample.scorelessDict Sample.wellFormedFile Sample.scenarioCatalog) =
  {| ended := Panicked NilDereference; inserts := [] |}.
Proof. vm_compute. reflexivity. Qed.

(** * Where the code departs from the specification *)

(** C3, as stated, fails on the scenario: the merge does not produce the
    mapping in which V-1 has no exploit probability. *)
Lemma scenario_claim_fails :
  ¬ ∃ st,
      mergeFeeds Sample.time_Parse Sample.publishedDateFmt listedOrder listedOrder
        Sample.scenarioDict Sample.scenarioScores Sample.scenarioCatalog = Ok st ∧
      canonical st = Sample.scenarioExpected.
Proof.
  intros (st & Hmerge & Hc).
  apply (f_equal (λ m, exploitProbability <$> m !! "V-1")) in Hc.
  vm_compute in Hmerge. injection Hmerge as <-.
  vm_compute in Hc. discriminate.
Qed.

(** C9, as stated, fails: a score row without an identifier makes a
    record whose identifier is empty. *)
Lemma empty_identifier_record :
  ∃ st,
    mergeFeeds Sample.time_Parse Sample.publishedDateFmt listedOrder listedOrder
      ∅ Sample.anonymousScores Sample.emptyCatalog = Ok st ∧
    ¬ ∀ k v, canonical st !! k = Some v → id v ≠ EmptyString.
Proof.
  eexists. split; [vm_compute; reflexivity|].
  intros Hall. eapply (Hall EmptyString); [vm_compute; reflexivity|]. reflexivity.
Qed.

(** * The theorems at work on the samples *)

Lemma known_exploited_always_set_witness :
  ∃ p, fleet.CISAKnownExploit Sample.scenarioV2 = Some p ∧
       bools (mem Sample.scenarioState) !! p =
         Some (bool_decide ("V-2" ∈ CVEID <$> Vulnerabilities Sample.scenarioCatalog)).
Proof.
  apply (known_exploited_always_set Sample.time_Parse Sample.publishedDateFmt
           listedOrder listedOrder Sample.scenarioDict Sample.scenarioScores
           Sample.scenarioCatalog Sample.scenarioState "V-2" Sample.scenarioV2);
    vm_compute; reflexivity.
Defined.

Lemma scenario_merge_witness :
  ∃ st p,
    mergeFeeds Sample.time_Parse Sample.publishedDateFmt listedOrder listedOrder
      {[ "V-1" := entryV3 7.5%float "2021-01-01T00:00Z" ]}
      [ {| CVE := "V-1"; Score := 0.42%float |}; {| CVE := "V-2"; Score := 0.10%float |} ]
      {| Vulnerabilities := [ {| CVEID := "V-2" |} ] |} = Ok st ∧
    canonical st =
      {[ "V-1" := {| id := "V-1"; severityScore := Some 7.5%float;
                     published := Some "2021-01-01T00:00Z";
                     exploitProbability := Some p; knownExploited := Some false |};
         "V-2" := {| id := "V-2"; severityScore := None; published := None;
                     exploitProbability := Some 0.10%float;
                     knownExploited := Some true |} ]}.
Proof.
  apply (scenario_merge Sample.time_Parse Sample.publishedDateFmt listedOrder listedOrder
           "2021-01-01T00:00Z" "2021-01-01T00:00Z").
  reflexivity.
Defined.

Lemma unparsable_score_aborts_witness :
  ∃ e', parseEPSSScoresFile Sample.ParseFloat (Ok Sample.badScoreFile) = ([], Some e').
Proof.
  apply (unparsable_score_aborts Sample.ParseFloat Sample.badScoreFile
           ["CVE-2"; "high"; "0.1"] None (NumError "high")).
  - eapply record_later; [vm_compute; reflexivity|discriminate|].
    eapply record_here; [vm_compute; reflexivity|discriminate].
  - reflexivity.
  - vm_compute. reflexivity.
Defined.

Lemma overlays_preserve_earlier_fields_witness :
  ∃ v2, canonical (loadEPSS Sample.scenarioScores Sample.scenarioSeeded) !! "V-1" = Some v2 ∧
        severityScore v2 = Some 7.5%float ∧ published v2 = Some "2021-01-01T00:00Z".
Proof.
  destruct (overlays_preserve_earlier_fields Sample.time_Parse Sample.publishedDateFmt
              listedOrder listedOrder Sample.scenarioDict Sample.scenarioScores
              Sample.scenarioCatalog Sample.scenarioSeeded) as (Hepss & _).
  - vm_compute. reflexivity.
  - destruct (Hepss "V-1"
                {| id := "V-1"; severityScore := Some 7.5%float;
                   published := Some "2021-01-01T00:00Z";
                   exploitProbability := None; knownExploited := None |})
      as (v2 & Hv2 & _ & Hs & Hp & _).
    + vm_compute. reflexivity.
    + exists v2. split_and!; [exact Hv2|exact Hs|exact Hp].
Defined.

Lemma empty_inputs_skip_store_witness :
  LoadCVEMeta Sample.time_Parse Sample.publishedDateFmt Sample.ParseFloat
    listedOrder listedOrder listedOrder
    (Sample.world Sample.oldDict (Sample.file [Sample.header]) Sample.emptyCatalog) =
  {| ended := Returned None; inserts := [] |}.
Proof.
  apply (empty_inputs_skip_store Sample.time_Parse Sample.publishedDateFmt Sample.ParseFloat
           listedOrder listedOrder listedOrder
           (Sample.world Sample.oldDict (Sample.file [Sample.header]) Sample.emptyCatalog)
           ["nvdcve-1.1-2021.json.gz"] Sample.oldDict initial "{}" Sample.emptyCatalog).
  - reflexivity.
  - reflexivity.
  - vm_compute. reflexivity.
  - reflexivity.
  - vm_compute. reflexivity.
  - reflexivity.
  - reflexivity.
  - reflexivity.
Defined.

Lemma identifiers_keyed_witness :
  (∀ k meta, metaMap Sample.scenarioState !! k = Some meta →
     fleet.CVE meta = k ∧
     ((∃ schema, Sample.scenarioDict !! k = Some schema ∧ is_Some (baseScoreV3 schema)) ∨
      k ∈ CVE <$> Sample.scenarioScores ∨
      k ∈ CVEID <$> Vulnerabilities Sample.scenarioCatalog)) ∧
  NoDup (fleet.CVE <$> (range listedOrder (metaMap Sample.scenarioState)).*2).
Proof.
  apply (identifiers_keyed Sample.time_Parse Sample.publishedDateFmt listedOrder listedOrder
           Sample.scenarioDict Sample.scenarioScores Sample.scenarioCatalog
           Sample.scenarioState listedOrder).
  vm_compute. reflexivity.
Defined.

Lemma header_error_discarded_witness :
  parseEPSSScoresFile Sample.ParseFloat
    (Ok (Sample.quotedHeader +:+ String Bytes.LF (Sample.file ["CVE-1,0.5,0.9"]))) =
    parseEPSSScoresFile Sample.ParseFloat
      (Ok (Sample.header +:+ String Bytes.LF (Sample.file ["CVE-1,0.5,0.9"]))) ∧
  parseEPSSScoresFile Sample.ParseFloat
    (Ok (Sample.file [Sample.header; "CVE-2,0.25,0.1"; Sample.quotedHeader; "CVE-1,0.5,0.9"])) =
    ([], Some (ParseError ErrBareQuote)).
Proof.
  apply (header_error_discarded Sample.ParseFloat
           Sample.quotedHeader Sample.header (Sample.file ["CVE-1,0.5,0.9"])
           ["cve"] (ParseError ErrBareQuote)
           (epssReader (Sample.file ["CVE-1,0.5,0.9"]))
           ["cve"; "epss"; "percentile"] None
           (epssReader (Sample.file ["CVE-1,0.5,0.9"]))
           (Sample.file [Sample.header; "CVE-2,0.25,0.1"; Sample.quotedHeader; "CVE-1,0.5,0.9"])
           [ ["CVE-2"; "0.25"; "0.1"] ]).
  - vm_compute. reflexivity.
  - discriminate.
  - reflexivity.
  - vm_compute. reflexivity.
  - reflexivity.
  - apply (until_later _ _
             (epssReader (Sample.quotedHeader +:+ String Bytes.LF (Sample.file ["CVE-1,0.5,0.9"])))).
    + vm_compute. reflexivity.
    + apply until_here.
  - repeat constructor. eexists. vm_compute. reflexivity.
Defined.

(** * Further properties of parseEPSSScoresFile *)

Section parseEPSSScoresFile_more.
Variable ParseFloat : string → result float64.

Lemma parseLoop_in_order r recs :
  reads r recs → csv.FieldsPerRecord r = 3 →
  Forall (λ rec, ∃ score, ParseFloat (field rec 1) = Ok score) recs →
  ∀ fuel acc, (length (csv.input r) < fuel)%nat →
    ∃ scores, parseLoop ParseFloat fuel r acc = (acc ++ scores, None) ∧
      Forall2 (λ rec sc, CVE sc = field rec 0 ∧ ParseFloat (field rec 1) = Ok (Score sc))
        recs scores.
Proof.
  induction 1 as [r rec r' HR|r rec r' recs HR Hreads IH]; intros Hf Hall fuel acc Hfuel;
    (destruct fuel as [|fuel]; [lia|]); simpl; rewrite HR.
  - exists []. by rewrite app_nil_r.
  - apply Forall_cons in Hall as [[score Hscore] Hall].
    assert (length rec = 3%nat) as ->
      by (apply csvFacts.Read_field_count in HR; lia).
    simpl. rewrite Hscore.
    assert (length (csv.input r') < length (csv.input r))%nat
      by (eapply csvFacts.Read_consumes; [done|discriminate]).
    destruct (IH) with (fuel := fuel)
      (acc := acc ++ [{| CVE := field rec 0; Score := score |}]) as (scores & -> & Hscores).
    { apply csvFacts.Read_settings in HR; [|lia]. destruct HR; congruence. }
    { done. }
    { lia. }
    eexists (_ :: scores). rewrite <-app_assoc. split; [done|].
    constructor; [done|done].
Qed.

(** X1. When the records after the header all carry a probability that
    parses, the parse returns no error and exactly one score per record,
    in the order of the file: the identifier is the first field, the
    score the parsed second field; the third field plays no part and
    repeated identifiers are kept. *)
Theorem scores_follow_records f recs :
  reads (afterHeader f) recs →
  Forall (λ rec, ∃ score, ParseFloat (field rec 1) = Ok score) recs →
  ∃ scores, parseEPSSScoresFile ParseFloat (Ok f) = (scores, None) ∧
    Forall2 (λ rec sc, CVE sc = field rec 0 ∧ ParseFloat (field rec 1) = Ok (Score sc))
      recs scores.
Proof.
  intros Hreads Hall. rewrite parse_unfold.
  destruct (parseLoop_in_order _ _ Hreads (afterHeader_settings f) Hall
              (S (length (csv.input (afterHeader f)))) []) as (scores & Hp & Hs); [lia|].
  exists scores. by rewrite Hp.
Qed.

Lemma parseLoop_error_origin fuel :
  ∀ r acc e, (parseLoop ParseFloat fuel r acc).2 = Some e →
    (parseLoop ParseFloat fuel r acc).1 = [] ∧
    ((∃ rec, record_at r rec (Some e)) ∨
     (∃ rec e', record_at r rec None ∧ length rec = 3%nat ∧
                ParseFloat (field rec 1) = Fail e' ∧ e = Errorf "parse epss score" e')).
Proof.
  induction fuel as [|fuel IH]; intros r acc e; simpl; [done|].
  destruct (csv.Read r) as [[rec err] r'] eqn:HR.
  assert (∀ acc', (parseLoop ParseFloat fuel r' acc').2 = Some e → err = None →
    (parseLoop ParseFloat fuel r' acc').1 = [] ∧
    ((∃ rec, record_at r rec (Some e)) ∨
     (∃ rec e', record_at r rec None ∧ length rec = 3%nat ∧
                ParseFloat (field rec 1) = Fail e' ∧ e = Errorf "parse epss score" e')))
    as Hnext.
  { intros acc' He ->. destruct (IH _ _ _ He) as [Hnil Hor]. split; [done|].
    destruct Hor as [[rec1 H1]|(rec1 & e' & H1 & ?)]; [left|right].
    - exists rec1. by eapply record_later.
    - exists rec1, e'. split; [by eapply record_later|done]. }
  destruct err as [e0|].
  - destruct e0; simpl; [done|intros [= <-]; split; [done|]; left; exists rec;
      by eapply record_here..].
  - destruct (length rec =? 3)%nat eqn:Hlen; simpl; [|by auto].
    apply Nat.eqb_eq in Hlen.
    destruct (ParseFloat (field rec 1)) as [score|e'] eqn:Hscore; [by auto|].
    simpl. intros [= <-]. split; [done|]. right. exists rec, e'.
    split_and!; try done. by eapply record_here.
Qed.

(** X2. The parse fails for two reasons only, once the file is open: a
    read after the header reports an error other than the end of the
    file, which is returned as it is, or a record of three fields has a
    probability that does not parse, which is returned wrapped.  With the
    error comes no score. *)
Theorem parse_error_origin f e :
  (parseEPSSScoresFile ParseFloat (Ok f)).2 = Some e →
  (parseEPSSScoresFile ParseFloat (Ok f)).1 = [] ∧
  ((∃ rec, record_at (afterHeader f) rec (Some e)) ∨
   (∃ rec e', record_at (afterHeader f) rec None ∧ length rec = 3%nat ∧
              ParseFloat (field rec 1) = Fail e' ∧ e = Errorf "parse epss score" e')).
Proof. rewrite parse_unfold. apply parseLoop_error_origin. Qed.

(** X3. A record after the header whose number of fields is not three
    makes the parse fail: the reader reports it, and the loop never
    reaches its own test of the number of fields. *)
Theorem wrong_field_count_aborts f rec err :
  record_at (afterHeader f) rec err → length rec ≠ 3%nat →
  ∃ e, parseEPSSScoresFile ParseFloat (Ok f) = ([], Some e).
Proof.
  intros Hat Hlen. rewrite parse_unfold. destruct err as [e|].
  - eapply parseLoop_read_error; [done|lia].
  - apply record_at_three in Hat; [done|apply afterHeader_settings].
Qed.
End parseEPSSScoresFile_more.

(** * Comment lines and empty lines *)

Module skipFacts.
Import Bytes csv.

Lemma append_cons a s t : String a s +:+ t = String a (s +:+ t).
Proof. reflexivity. Qed.

Lemma append_nil_l t : EmptyString +:+ t = t.
Proof. reflexivity. Qed.

Lemma append_nil_r s : s +:+ EmptyString = s.
Proof. induction s as [|a s IH]; [done|]. by rewrite append_cons, IH. Qed.

Lemma append_snoc cur a c : (cur +:+ String a EmptyString) +:+ c = cur +:+ String a c.
Proof. induction cur as [|b cur IH]; [done|]. by rewrite !append_cons, IH. Qed.

(** A run of bytes without a newline, then a newline: one line. *)
Lemma splitLines_line c f : ∀ cur,
  IndexByte c LF = None →
  splitLines cur (c +:+ String LF f) =
    normalize ((cur +:+ c) +:+ String LF EmptyString) :: splitLines EmptyString f.
Proof.
  induction c as [|a c IH]; intros cur Hc; rewrite ?append_nil_l, ?append_cons; simpl.
  - by rewrite append_nil_r.
  - simpl in Hc. destruct (Ascii.eqb a LF) eqn:Ha; [done|].
    destruct (IndexByte c LF) eqn:Hi; [done|].
    rewrite IH by done. by rewrite append_snoc.
Qed.

Lemma first_normalize line :
  first line ≠ Some CR → first (normalize line) = first line.
Proof.
  destruct line as [|a [|b [|d rest]]]; try done.
  - intros Ha. unfold normalize, endsWith. simpl.
    destruct (Ascii.eqb b LF); simpl; [|done].
    destruct (Ascii.eqb a CR) eqn:Hcr; [|done].
    apply Ascii.eqb_eq in Hcr. by subst a.
  - intros _. unfold normalize.
    by destruct (_ && _).
Qed.

Lemma nextLine_settings r1 r2 lines :
  Comment r1 = Comment r2 → nextLine r1 lines = nextLine r2 lines.
Proof.
  intros Hc. induction lines as [|line lines IH]; simpl; [done|].
  unfold isComment. by rewrite Hc, IH.
Qed.

(** A comment line or an empty line in front of the input changes
    nothing to what [Read] returns. *)
Lemma Read_skips r line :
  isComment r line = true ∨ String.length line = lengthNL line →
  Read {| Comment := Comment r; FieldsPerRecord := FieldsPerRecord r;
          input := line :: input r |} = Read r.
Proof.
  intros Hskip. unfold Read at 1. simpl.
  assert (isComment {| Comment := Comment r; FieldsPerRecord := FieldsPerRecord r;
                       input := line :: input r |} line = isComment r line) as -> by done.
  assert ((if isComment r line
           then nextLine {| Comment := Comment r; FieldsPerRecord := FieldsPerRecord r;
                            input := line :: input r |} (input r)
           else if (String.length line =? lengthNL line)%nat
                then nextLine {| Comment := Comment r; FieldsPerRecord := FieldsPerRecord r;
                                 input := line :: input r |} (input r)
                else Some (line, input r)) = nextLine r (input r)) as ->.
  { destruct Hskip as [-> | Hlen].
    - by apply nextLine_settings.
    - apply Nat.eqb_eq in Hlen. rewrite Hlen.
      destruct (isComment r line); by apply nextLine_settings. }
  done.
Qed.

(** *** A first line of unquoted fields is read on its own *)

Lemma IndexByte_append_None s t c :
  IndexByte s c = None → IndexByte t c = None → IndexByte (s +:+ t) c = None.
Proof.
  intros Hs Ht. induction s as [|a s IH]; [done|]. rewrite append_cons. simpl in *.
  destruct (Ascii.eqb a c); [done|].
  destruct (IndexByte s c); [done|]. by rewrite IH.
Qed.

Lemma IndexByte_take_None n s c : IndexByte s c = None → IndexByte (take n s) c = None.
Proof.
  revert s. induction n as [|n IH]; intros [|a s]; simpl; try done.
  destruct (Ascii.eqb a c); [done|].
  destruct (IndexByte s c) eqn:Hs; [done|]. intros _. by rewrite IH.
Qed.

Lemma IndexByte_drop_None n s c : IndexByte s c = None → IndexByte (drop n s) c = None.
Proof.
  revert s. induction n as [|n IH]; intros [|a s]; simpl; try done.
  destruct (Ascii.eqb a c); [done|].
  destruct (IndexByte s c) eqn:Hs; [done|]. intros _. by apply IH.
Qed.

Lemma startsWith_None c s : IndexByte s c = None → startsWith c s = false.
Proof. destruct s as [|a s]; simpl; [done|]. by destruct (Ascii.eqb a c). Qed.

Lemma last_IndexByte s a : last s = Some a → IndexByte s a ≠ None.
Proof.
  induction s as [|b s IH]; [done|]. simpl.
  destruct s as [|d s].
  - intros [= ->]. by rewrite Ascii.eqb_refl.
  - intros Hl. destruct (Ascii.eqb b a); [done|].
    specialize (IH Hl). by destruct (IndexByte (String d s) a).
Qed.

Lemma endsWith_None c s : IndexByte s c = None → endsWith c s = false.
Proof.
  intros Hs. unfold endsWith. destruct (last s) as [a|] eqn:Hl; [|done].
  destruct (Ascii.eqb a c) eqn:Ha; [|done].
  apply Ascii.eqb_eq in Ha. subst a. by apply last_IndexByte in Hl.
Qed.

Lemma length_append s t : String.length (s +:+ t) = (String.length s + String.length t)%nat.
Proof. induction s as [|a s IH]; [done|]. rewrite append_cons. simpl. by rewrite IH. Qed.

Lemma take_append s t : take (String.length s) (s +:+ t) = s.
Proof. induction s as [|a s IH]; [by destruct t|]. rewrite append_cons. simpl. by rewrite IH. Qed.

Lemma normalize_plain c :
  IndexByte c CR = None → normalize (c +:+ String LF EmptyString) = c +:+ String LF EmptyString.
Proof.
  intros Hc. unfold normalize. rewrite length_append. simpl.
  replace (String.length c + 1 - 1)%nat with (String.length c) by lia.
  by rewrite take_append, (endsWith_None CR c Hc), andb_false_r.
Qed.

(** The field loop on a line without a quote: no error, and the lines
    behind it are not touched. *)
Lemma parseField_plain fuel : ∀ lines line fields,
  IndexByte line quote = None →
  ∃ dst, parseField fuel lines line fields = (dst, None, lines).
Proof.
  induction fuel as [|fuel IH]; intros lines line fields Hq; [by eexists|].
  rewrite csvFacts.parseField_S, (startsWith_None quote line Hq). cbn [negb]. cbv zeta.
  destruct (IndexByte line comma) as [i|].
  - rewrite (IndexByte_take_None i line quote Hq). apply IH. by apply IndexByte_drop_None.
  - rewrite (IndexByte_take_None _ line quote Hq). by eexists.
Qed.

Lemma nextLine_plain r line lines :
  Comment r = Some "#"%char → plainLine line →
  nextLine r ((line +:+ String LF EmptyString) :: lines) =
    Some (line +:+ String LF EmptyString, lines).
Proof.
  intros Hc (Hne & Hhash & _). destruct line as [|a line]; [done|].
  cbn [nextLine]. unfold isComment. rewrite Hc, append_cons. cbn [first].
  simpl in Hhash. rewrite Hhash.
  assert ((String.length (String a (line +:+ String LF EmptyString))
           =? lengthNL (String a (line +:+ String LF EmptyString)))%nat = false) as ->; [|done].
  apply Nat.eqb_neq. cbn [String.length]. rewrite length_append. unfold lengthNL.
  cbn [String.length]. destruct (endsWith _ _); lia.
Qed.

Lemma Read_plainLine line rest :
  plainLine line →
  ∃ rec err, Read (epssReader (line +:+ String LF rest)) = ((rec, err), epssReader rest).
Proof.
  intros Hplain. pose proof Hplain as (Hne & Hhash & Hlf & Hcr & Hq).
  assert (input (epssReader (line +:+ String LF rest)) =
          (line +:+ String LF EmptyString) :: splitLines EmptyString rest) as Hin.
  { unfold epssReader, NewReader. cbn [input].
    by rewrite (splitLines_line line rest EmptyString Hlf), append_nil_l,
      (normalize_plain line Hcr). }
  destruct (parseField_plain
              (S (pending (splitLines EmptyString rest) (line +:+ String LF EmptyString)))
              (splitLines EmptyString rest) (line +:+ String LF EmptyString) [])
    as [dst Hdst].
  { by apply IndexByte_append_None. }
  unfold Read.
  rewrite Hin, (nextLine_plain (epssReader _) line _ eq_refl Hplain), Hdst.
  cbn. eauto.
Qed.

End skipFacts.

Section leading_lines.
Variable ParseFloat : string → result float64.

(** X4. A comment line (one that begins with [#]) or an empty line at the
    head of the file changes nothing to the result: the header is still
    the line that is dropped, and the rows behind it are parsed as without
    that line. *)
Theorem leading_comment_ignored c f :
  c = EmptyString ∨ Bytes.startsWith "#" c = true →
  Bytes.IndexByte c Bytes.LF = None →
  parseEPSSScoresFile ParseFloat (Ok (c +:+ String Bytes.LF f)) =
  parseEPSSScoresFile ParseFloat (Ok f).
Proof.
  intros Hc Hnl. unfold parseEPSSScoresFile.
  assert (csv.Read (epssReader (c +:+ String Bytes.LF f)) = csv.Read (epssReader f)) as ->;
    [|done].
  unfold epssReader, csv.NewReader. simpl.
  rewrite skipFacts.splitLines_line by done. simpl.
  apply (skipFacts.Read_skips
           {| csv.Comment := Some "#"%char; csv.FieldsPerRecord := 3;
              csv.input := csv.splitLines EmptyString f |}).
  destruct Hc as [-> | Hc]; [by right|left].
  unfold csv.isComment. simpl.
  destruct c as [|a c]; [done|]. simpl in Hc. apply Ascii.eqb_eq in Hc. subst a.
  pose proof (skipFacts.first_normalize (String "#" c +:+ String Bytes.LF EmptyString)) as Hf.
  simpl in Hf. rewrite skipFacts.append_nil_l, Hf by done. done.
Qed.
(** X18. What the first line holds does not count, when it is a line of
    unquoted fields: two files that differ in such a first line only,
    whatever the number of fields of either, give the same scores and
    the same error. *)
Theorem first_line_fields_irrelevant line1 line2 rest :
  plainLine line1 → plainLine line2 →
  parseEPSSScoresFile ParseFloat (Ok (line1 +:+ String Bytes.LF rest)) =
  parseEPSSScoresFile ParseFloat (Ok (line2 +:+ String Bytes.LF rest)).
Proof.
  intros H1 H2.
  destruct (skipFacts.Read_plainLine line1 rest H1) as (rec1 & err1 & HR1).
  destruct (skipFacts.Read_plainLine line2 rest H2) as (rec2 & err2 & HR2).
  destruct (parse_resumes ParseFloat _ rest _ _ _ HR1 eq_refl) as [_ ->].
  by destruct (parse_resumes ParseFloat _ rest _ _ _ HR2 eq_refl) as [_ ->].
Qed.
End leading_lines.

(** * Further properties of the merge *)

Section merge_more.
Context {Time : Type}.
Variable time_Parse : string → string → result Time.
Variable publishedDateFmt : string.

Implicit Types (st : state Time) (v : values Time) (k : string).
Implicit Types (dictOrder : MapOrder Vuln) (fillOrder : MapOrder fleet.CVEMeta).

Local Abbreviation seedValue := (seedValue time_Parse publishedDateFmt).
Local Abbreviation badDate := (badDate time_Parse publishedDateFmt).
Local Abbreviation overlaid := (overlaid time_Parse publishedDateFmt).
Local Abbreviation mergeFeeds := (mergeFeeds time_Parse publishedDateFmt).

(** A merge that does not complete met an entry that stops the first
    loop; a merge that completes met none. *)
Lemma mergeFeeds_stop_inv dictOrder fillOrder dict epssScores catalog :
  (∀ st, mergeFeeds dictOrder fillOrder dict epssScores catalog ≠ Ok st) →
  ∃ k schema, dict !! k = Some schema ∧ (badDate schema ∨ nilDereference schema = true).
Proof.
  unfold mergeFeeds.
  destruct (loadCVSS _ _ dictOrder dict) as [[st1|e]|p] eqn:Hl; intros Hstop.
  - by destruct (Hstop _ eq_refl).
  - apply loadCVSS_Fail_inv in Hl as (_ & k & schema & Hk & Hbad). eauto.
  - apply loadCVSS_Panics_inv in Hl as (k & schema & Hk & Hnil). eauto.
Qed.

Lemma mergeFeeds_stops dictOrder fillOrder dict epssScores catalog k schema :
  dict !! k = Some schema → badDate schema ∨ nilDereference schema = true →
  ∀ st, mergeFeeds dictOrder fillOrder dict epssScores catalog ≠ Ok st.
Proof.
  intros Hk Hstop st. unfold mergeFeeds.
  pose proof (loadCVSS_stops time_Parse publishedDateFmt dictOrder dict k schema Hk Hstop) as Hl.
  destruct (loadCVSS _ _ dictOrder dict) as [[st1|e]|p]; [|done..].
  by destruct (Hl st1).
Qed.

(** A merge that completes has parsed the date of every entry with a
    version-3 block. *)
Lemma mergeFeeds_dated dictOrder fillOrder dict epssScores catalog st k schema baseScore :
  mergeFeeds dictOrder fillOrder dict epssScores catalog = Ok st →
  dict !! k = Some schema → baseScoreV3 schema = Some baseScore →
  ∃ t, time_Parse publishedDateFmt (PublishedDate schema) = Ok t ∧
       seedValue k schema =
         Some {| id := k; severityScore := Some baseScore; published := Some t;
                 exploitProbability := None; knownExploited := None |}.
Proof.
  intros Hmerge Hk Hs. unfold seedValue. rewrite Hs.
  destruct (time_Parse publishedDateFmt (PublishedDate schema)) as [t|e] eqn:Ht; [eauto|].
  destruct (mergeFeeds_stops dictOrder fillOrder dict epssScores catalog k schema Hk) with st;
    [|done].
  left. split; [by rewrite Hs|eauto].
Qed.

(** In a merge that completes every entry has its impact, and every
    version-3 block its score: to have a version-3 block and to have a
    version-3 score are then one and the same. *)
Lemma mergeFeeds_blocks_scored dictOrder fillOrder dict epssScores catalog st k schema :
  mergeFeeds dictOrder fillOrder dict epssScores catalog = Ok st →
  dict !! k = Some schema →
  is_Some (Impact schema) ∧ (is_Some (baseScoreV3 schema) ↔ is_Some (blockV3 schema)).
Proof.
  intros Hmerge Hk.
  pose proof (mergeFeeds_stops dictOrder fillOrder dict epssScores catalog k schema Hk) as Hstop.
  unfold baseScoreV3, blockV3, nilDereference in *.
  destruct (Impact schema) as [[[[[[s]|]]|]]|]; simpl in *.
  - done.
  - by destruct (Hstop (or_intror eq_refl) st).
  - split; [done|]. split; by intros [? ?].
  - by destruct (Hstop (or_intror eq_refl) st).
Qed.

(** X5. Whether the merge completes, and with what, does not depend on
    the order in which the runtime walks the maps: two runs on the same
    inputs, each with orders of its own, either both complete, with the
    same canonical mapping, or neither does.  (How a run that does not
    complete stops, by the error of a date or by a panic, can depend on
    the order.) *)
Theorem merge_independent_of_map_order
    dictOrder fillOrder dictOrder' fillOrder' dict epssScores catalog :
  match mergeFeeds dictOrder fillOrder dict epssScores catalog,
        mergeFeeds dictOrder' fillOrder' dict epssScores catalog with
  | Returns (Ok st), Returns (Ok st') => canonical st = canonical st'
  | Returns (Ok _), _ | _, Returns (Ok _) => False
  | _, _ => True
  end.
Proof.
  assert (∀ o1 f1 o2 f2 st,
    mergeFeeds o1 f1 dict epssScores catalog = Ok st →
    ∃ st', mergeFeeds o2 f2 dict epssScores catalog = Ok st') as Hboth.
  { intros o1 f1 o2 f2 st H1.
    destruct (mergeFeeds o2 f2 dict epssScores catalog) as [[st'|e]|p] eqn:H2; [eauto|..].
    - destruct (mergeFeeds_stop_inv o2 f2 dict epssScores catalog) as (k & schema & Hk & Hstop);
        [by rewrite H2|].
      by destruct (mergeFeeds_stops o1 f1 dict epssScores catalog k schema Hk Hstop st).
    - destruct (mergeFeeds_stop_inv o2 f2 dict epssScores catalog) as (k & schema & Hk & Hstop);
        [by rewrite H2|].
      by destruct (mergeFeeds_stops o1 f1 dict epssScores catalog k schema Hk Hstop st). }
  destruct (mergeFeeds dictOrder fillOrder _ _ _) as [[st|e]|p] eqn:H1;
    destruct (mergeFeeds dictOrder' fillOrder' _ _ _) as [[st'|e']|p'] eqn:H2; try done.
  - destruct (mergeFeeds_spec _ _ _ _ _ _ _ _ H1) as [_ Hc].
    destruct (mergeFeeds_spec _ _ _ _ _ _ _ _ H2) as [_ Hc'].
    apply map_eq. intros k. by rewrite Hc, Hc'.
  - destruct (Hboth _ _ dictOrder' fillOrder' _ H1) as [st' H2']. congruence.
  - destruct (Hboth _ _ dictOrder' fillOrder' _ H1) as [st' H2']. congruence.
  - destruct (Hboth _ _ dictOrder fillOrder _ H2) as [st H1']. congruence.
  - destruct (Hboth _ _ dictOrder fillOrder _ H2) as [st H1']. congruence.
Qed.

(** X6. The merged mapping has a record for an identifier exactly when
    the dictionary has an entry with a version-3 block for it, or a score
    row names it, or the catalog lists it: no identifier of a feed is
    dropped and none is made up. *)
Theorem merged_identifiers dictOrder fillOrder dict epssScores catalog st k :
  mergeFeeds dictOrder fillOrder dict epssScores catalog = Ok st →
  is_Some (metaMap st !! k) ↔
    (∃ schema, dict !! k = Some schema ∧ is_Some (baseScoreV3 schema)) ∨
    k ∈ CVE <$> epssScores ∨ k ∈ CVEID <$> Vulnerabilities catalog.
Proof.
  intros Hmerge. destruct (mergeFeeds_spec _ _ _ _ _ _ _ _ Hmerge) as [_ Hc].
  specialize (Hc k). rewrite canonical_lookup in Hc.
  assert (is_Some (metaMap st !! k) ↔ is_Some (overlaid dict epssScores catalog k)) as ->.
  { rewrite <-Hc. by rewrite fmap_is_Some. }
  clear Hc. split.
  - intros [v Hv]. apply overlaid_Some in Hv as [_ [[x Hx]|[?|?]]]; auto.
    left. destruct (dict !! k) as [schema|]; [|done]. exists schema. split; [done|].
    simpl in Hx. unfold seedValue in Hx. by destruct (baseScoreV3 schema).
  - unfold overlaid. intros Hin. rewrite fmap_is_Some.
    destruct (decide (k ∈ CVEID <$> _)); [done|].
    destruct (decide (k ∈ CVE <$> _)); [done|].
    destruct Hin as [(schema & Hk & [s Hs])|[?|?]]; try done.
    destruct (mergeFeeds_dated _ _ _ _ _ _ _ _ _ Hmerge Hk Hs) as (t & _ & Hseed).
    rewrite Hk. simpl. by rewrite Hseed.
Qed.

(** X7. An identifier the severity feed alone knows ends with its score
    and its date, no exploit probability, and known-exploited false. *)
Theorem severity_only_record dictOrder fillOrder dict epssScores catalog st k schema baseScore :
  mergeFeeds dictOrder fillOrder dict epssScores catalog = Ok st →
  dict !! k = Some schema → baseScoreV3 schema = Some baseScore →
  k ∉ CVE <$> epssScores → k ∉ CVEID <$> Vulnerabilities catalog →
  ∃ t, time_Parse publishedDateFmt (PublishedDate schema) = Ok t ∧
       canonical st !! k =
         Some {| id := k; severityScore := Some baseScore; published := Some t;
                 exploitProbability := None; knownExploited := Some false |}.
Proof.
  intros Hmerge Hk Hs He Hc.
  destruct (mergeFeeds_dated _ _ _ _ _ _ _ _ _ Hmerge Hk Hs) as (t & Ht & Hseed).
  exists t. split; [done|].
  destruct (mergeFeeds_spec _ _ _ _ _ _ _ _ Hmerge) as [_ ->].
  unfold overlaid. rewrite !decide_False by done.
  rewrite Hk. simpl. by rewrite Hseed.
Qed.

(** X8. An identifier the catalog alone knows ends with known-exploited
    true and nothing else: no score, no date, no exploit probability. *)
Theorem catalog_only_record dictOrder fillOrder dict epssScores catalog st k :
  mergeFeeds dictOrder fillOrder dict epssScores catalog = Ok st →
  (∀ schema, dict !! k = Some schema → baseScoreV3 schema = None) →
  k ∉ CVE <$> epssScores → k ∈ CVEID <$> Vulnerabilities catalog →
  canonical st !! k =
    Some {| id := k; severityScore := None; published := None;
            exploitProbability := None; knownExploited := Some true |}.
Proof.
  intros Hmerge Hk He Hc.
  destruct (mergeFeeds_spec _ _ _ _ _ _ _ _ Hmerge) as [_ ->].
  unfold overlaid. rewrite decide_True, decide_False by done.
  destruct (dict !! k) as [schema|] eqn:Hd; [|done].
  simpl. unfold seedValue. by rewrite (Hk schema eq_refl).
Qed.

(** X9. Of the catalog only the set of its identifiers counts: two
    catalogs listing the same identifiers, in whatever order and however
    often, give the same canonical mapping. *)
Theorem catalog_order_irrelevant dictOrder fillOrder dict epssScores catalog catalog' st st' :
  (∀ k, k ∈ CVEID <$> Vulnerabilities catalog ↔ k ∈ CVEID <$> Vulnerabilities catalog') →
  mergeFeeds dictOrder fillOrder dict epssScores catalog = Ok st →
  mergeFeeds dictOrder fillOrder dict epssScores catalog' = Ok st' →
  canonical st = canonical st'.
Proof.
  intros Hsame H1 H2.
  destruct (mergeFeeds_spec _ _ _ _ _ _ _ _ H1) as [_ Hc].
  destruct (mergeFeeds_spec _ _ _ _ _ _ _ _ H2) as [_ Hc'].
  apply map_eq. intros k. rewrite Hc, Hc'. unfold overlaid.
  destruct (decide (k ∈ CVEID <$> Vulnerabilities catalog)) as [Hin|Hin];
    destruct (decide (k ∈ CVEID <$> Vulnerabilities catalog')) as [Hin'|Hin']; try done.
  - destruct Hin'. by apply Hsame.
  - destruct Hin. by apply Hsame.
Qed.

(** X15. At the end of the merge every identifier the score rows name
    reads one and the same exploit probability, the score of the last row
    of the sequence: the records share the cell of the loop variable. *)
Theorem probability_reads_last_row dictOrder fillOrder dict epssScores catalog st k v :
  mergeFeeds dictOrder fillOrder dict epssScores catalog = Ok st →
  k ∈ CVE <$> epssScores → canonical st !! k = Some v →
  exploitProbability v = Score <$> last epssScores.
Proof.
  intros Hmerge Hin. destruct (mergeFeeds_spec _ _ _ _ _ _ _ _ Hmerge) as [_ ->].
  unfold overlaid. rewrite (decide_True (P := k ∈ CVE <$> epssScores)) by done.
  assert (∀ x : values Time, exploitProbability (fillValue x) = exploitProbability x) as Hfill
    by (intros x; unfold fillValue; by destruct (knownExploited x)).
  destruct (decide (k ∈ CVEID <$> _)); simpl; intros [= <-]; by rewrite Hfill.
Qed.
End merge_more.

(** * Further properties of LoadCVEMeta *)

Section LoadCVEMeta_more.
Context {Time : Type}.
Variable time_Parse : string → string → result Time.
Variable publishedDateFmt : string.
Variable ParseFloat : string → result float64.
Variable dictOrder : MapOrder Vuln.
Variable fillOrder : MapOrder fleet.CVEMeta.
Variable sliceOrder : MapOrder fleet.CVEMeta.

Local Abbreviation run :=
  (LoadCVEMeta time_Parse publishedDateFmt ParseFloat dictOrder fillOrder sliceOrder).
Local Abbreviation mergeFeeds :=
  (mergeFeeds time_Parse publishedDateFmt dictOrder fillOrder).

(** The inputs of a run all loaded, and merged into [st]. *)
Local Abbreviation loaded w st :=
  (∃ files dict epssScores b catalog,
     getNVDCVEFeedFiles w = Ok files ∧ LoadJSONDictionary w files = Ok dict ∧
     parseEPSSScoresFile ParseFloat (openEPSS w) = (epssScores, None) ∧
     readCISA w = Ok b ∧ Unmarshal w b = Ok catalog ∧
     mergeFeeds dict epssScores catalog = Ok st).

Lemma run_cases (w : World Time) :
  (ended (run w) ≠ Returned None ∧ inserts (run w) = [] ∧ ¬ ∃ st, loaded w st) ∨
  (∃ st, loaded w st ∧
     run w =
       if (size (metaMap st) =? 0)%nat then {| ended := Returned None; inserts := [] |}
       else
         let meta := (range sliceOrder (metaMap st)).*2 in
         {| ended :=
              Returned
                match InsertCVEMeta w (mem st) meta with
                | Some err => Some (Errorf "insert cve meta" err)
                | None => None
                end;
            inserts := [(meta, mem st)] |}).
Proof.
  unfold LoadCVEMeta, mergeFeeds.
  destruct (getNVDCVEFeedFiles w) as [files|e] eqn:Hfiles.
  2: { left. split_and!; [done|done|]. by intros (? & ? & ? & ? & ? & ? & ? & _). }
  destruct (LoadJSONDictionary w files) as [dict|e] eqn:Hdict.
  2: { left. split_and!; [done|done|].
       intros (? & ? & ? & ? & ? & ? & ? & ? & _). congruence. }
  destruct (loadCVSS _ _ _ dict) as [[st1|e]|p] eqn:H1.
  2,3: left; (split_and!; [done|done|]);
       intros (? & files' & dict' & ? & ? & ? & Hf' & Hd' & _ & _ & _ & Hm);
       assert (files' = files) as -> by congruence;
       assert (dict' = dict) as -> by congruence;
       by rewrite H1 in Hm.
  destruct (parseEPSSScoresFile ParseFloat (openEPSS w)) as [epssScores [e|]] eqn:Hparse.
  { left. split_and!; [done|done|].
    by intros (? & ? & ? & ? & ? & ? & ? & ? & ? & _). }
  destruct (readCISA w) as [b|e] eqn:Hread.
  2: { left. split_and!; [done|done|].
       by intros (? & ? & ? & ? & ? & ? & ? & ? & ? & ? & _). }
  destruct (Unmarshal w b) as [catalog|e] eqn:Hunm.
  2: { left. split_and!; [done|done|].
       intros (? & ? & ? & ? & ? & ? & ? & ? & ? & ? & ? & _). congruence. }
  right. eexists. split.
  { exists files, dict, epssScores, b, catalog. split_and!; try done. by rewrite H1. }
  simpl.
  destruct (size _ =? 0)%nat; [done|]. simpl. by destruct (InsertCVEMeta w _ _).
Qed.

Lemma loaded_unique (w : World Time) st st' : loaded w st → loaded w st' → st = st'.
Proof.
  intros (? & ? & ? & ? & ? & ? & ? & ? & ? & ? & ?) (? & ? & ? & ? & ? & ? & ? & ? & ? & ? & ?).
  congruence.
Qed.

(** X10. [InsertCVEMeta] is called at most once, and only when every
    input was loaded and the merged mapping is not empty; the call then
    passes one record for each entry of the mapping. *)
Theorem store_called_once_with_all (w : World Time) :
  inserts (run w) = [] ∨
  ∃ st, loaded w st ∧ metaMap st ≠ ∅ ∧
        inserts (run w) = [((range sliceOrder (metaMap st)).*2, mem st)] ∧
        (range sliceOrder (metaMap st)).*2 ≡ₚ (map_to_list (metaMap st)).*2.
Proof.
  destruct (run_cases w) as [(_ & Hnone & _)|(st & Hl & ->)]; [by left|].
  destruct (size (metaMap st) =? 0)%nat eqn:Hsize; [by left|].
  right. exists st. split_and!; try done.
  - intros Hempty. rewrite Hempty, map_size_empty in Hsize. done.
  - by rewrite (range_perm sliceOrder (metaMap st)).
Qed.

(** X11. [LoadCVEMeta] returns [nil] exactly when every input was
    loaded, the merge completed (no date failed to parse and no entry
    made the first loop panic), and then either the merged mapping is
    empty or the store accepted it. *)
Theorem LoadCVEMeta_succeeds_iff (w : World Time) :
  ended (run w) = Returned None ↔
  ∃ st, loaded w st ∧
        (metaMap st = ∅ ∨
         InsertCVEMeta w (mem st) (range sliceOrder (metaMap st)).*2 = None).
Proof.
  destruct (run_cases w) as [(He & _ & Hnot)|(st & Hl & Hrun)].
  - split; [done|]. intros (st & Hl & _). destruct Hnot. eauto.
  - rewrite Hrun. split.
    + intros Hret. exists st. split; [done|].
      destruct (size (metaMap st) =? 0)%nat eqn:Hsize.
      * left. by apply Nat.eqb_eq, map_size_empty_inv in Hsize.
      * right. simpl in Hret. by destruct (InsertCVEMeta w _ _).
    + intros (st' & Hl' & Hor). rewrite <-(loaded_unique w _ _ Hl Hl') in Hor.
      destruct (size (metaMap st) =? 0)%nat eqn:Hsize; [done|]. simpl.
      destruct Hor as [Hempty | ->]; [|done].
      rewrite Hempty, map_size_empty in Hsize. done.
Qed.


(** X17. Whatever else the dictionary holds, an entry with a version-3
    block whose publication date does not parse keeps [LoadCVEMeta] from
    completing: the call ends with the wrapped error of a date or in the
    panic of a nil dereference, and the store is not called. *)
Theorem ill_dated_entry_stops_run (w : World Time) files dict k schema :
  getNVDCVEFeedFiles w = Ok files →
  LoadJSONDictionary w files = Ok dict →
  dict !! k = Some schema →
  illDated time_Parse publishedDateFmt schema →
  inserts (run w) = [] ∧
  (ended (run w) = Panicked NilDereference ∨
   ∃ e, ended (run w) = Returned (Some (Errorf "parse published_date" e))).
Proof.
  intros Hfiles Hdict Hk Hill. apply illDated_stops in Hill.
  pose proof (loadCVSS_stops time_Parse publishedDateFmt dictOrder dict k schema Hk Hill) as Hl.
  unfold LoadCVEMeta. rewrite Hfiles, Hdict.
  destruct (loadCVSS _ _ _ dict) as [[st1|err]|[]] eqn:H1.
  - by destruct (Hl st1).
  - apply loadCVSS_Fail_inv in H1 as [[e ->] _]. simpl. eauto.
  - simpl. eauto.
Qed.
End LoadCVEMeta_more.

(** * Properties of Sync and of the download functions *)

Section Sync_facts.
Context {URL : Type}.
Implicit Types (net : Net URL) (log : list (attempt URL)).

(** X12. [Sync] attempts the downloads in one fixed order (CPE database,
    NVD feed, EPSS feed, CISA catalog), each at most once, and every
    attempt but the last one made has succeeded: it stops at the first
    failure.  When it returns [nil], all four were made. *)
Theorem Sync_stops_at_first_failure net vulnPath cpeDatabaseURL :
  let '(err, log) := Sync net vulnPath cpeDatabaseURL in
  rank <$> log = seq 0 (length log) ∧
  (∀ i a, log !! i = Some a → (S i < length log)%nat → answer net a = None) ∧
  (err = None → length log = 4%nat ∧ ∀ a, a ∈ log → answer net a = None).
Proof.
  unfold Sync, DownloadEPSSFeed, DownloadCISAKnownExploitsFeed.
  destruct (DownloadCPEDatabase net vulnPath cpeDatabaseURL) as [e1|] eqn:H1.
  { split_and!; [done| |done]. intros [|i] a; simpl; [lia|done]. }
  destruct (DownloadNVDCVEFeed net vulnPath EmptyString) as [e2|] eqn:H2.
  { split_and!; [done| |done]. intros [|[|i]] a; simpl; [by intros [= <-]|lia|done]. }
  destruct (url_Parse net (epssFeedsURL +:+ "/" +:+ epssFilename)) as [u1|e3].
  2: { split_and!; [done| |done].
       intros [|[|i]] a; simpl; [by intros [= <-]|lia|done]. }
  destruct (download_DownloadAndExtract net u1 _) as [e3|] eqn:H3.
  { split_and!; [done| |done].
    intros [|[|[|i]]] a; simpl; [by intros [= <-]..|lia|done]. }
  destruct (url_Parse net cisaKnownExploitsURL) as [u2|e4].
  2: { split_and!; [done| |done].
       intros [|[|[|i]]] a; simpl; [by intros [= <-]..|lia|done]. }
  destruct (download_Download net u2 _) as [e4|] eqn:H4.
  { split_and!; [done| |done].
    intros [|[|[|[|i]]]] a; simpl; [by intros [= <-]..|lia|done]. }
  split_and!; [done| |].
  - intros [|[|[|[|i]]]] a; simpl; [by intros [= <-]..|lia|done].
  - intros _. split; [done|]. intros a Ha. simpl in Ha.
    repeat (apply elem_of_cons in Ha as [->|Ha]; [done|]). by apply elem_of_nil in Ha.
Qed.

(** X13. The error [Sync] returns names the feed that failed: it is the
    error of the first download that failed, wrapped with the label of
    its feed.  For the four downloads themselves failing: *)
Theorem Sync_wraps_first_failure net vulnPath cpeDatabaseURL err :
  (Sync net vulnPath cpeDatabaseURL).1 = Some err →
  ∃ label cause, err = Errorf label cause ∧
    ((label = "sync CPE database" ∧
      DownloadCPEDatabase net vulnPath cpeDatabaseURL = Some cause) ∨
     (label = "sync NVD CVE feed" ∧
      DownloadCPEDatabase net vulnPath cpeDatabaseURL = None ∧
      DownloadNVDCVEFeed net vulnPath EmptyString = Some cause) ∨
     (label = "sync EPSS CVE feed" ∧
      DownloadCPEDatabase net vulnPath cpeDatabaseURL = None ∧
      DownloadNVDCVEFeed net vulnPath EmptyString = None ∧
      (DownloadEPSSFeed net vulnPath).1 = Some cause) ∨
     (label = "sync CISA known exploits feed" ∧
      DownloadCPEDatabase net vulnPath cpeDatabaseURL = None ∧
      DownloadNVDCVEFeed net vulnPath EmptyString = None ∧
      (DownloadEPSSFeed net vulnPath).1 = None ∧
      (DownloadCISAKnownExploitsFeed net vulnPath).1 = Some cause)).
Proof.
  unfold Sync.
  destruct (DownloadCPEDatabase net vulnPath cpeDatabaseURL) as [e1|]; simpl.
  { intros [= <-]. eauto 10. }
  destruct (DownloadNVDCVEFeed net vulnPath EmptyString) as [e2|]; simpl.
  { intros [= <-]. eauto 10. }
  destruct (DownloadEPSSFeed net vulnPath) as [[e3|] made3]; simpl.
  { intros [= <-]. eauto 15. }
  destruct (DownloadCISAKnownExploitsFeed net vulnPath) as [[e4|] made4]; simpl; [|done].
  intros [= <-]. eauto 15.
Qed.

(** X14. Where the feeds are put is where they are looked for: when
    [Sync] has succeeded on a directory, the file [DownloadEPSSFeed]
    extracted into (the name of the feed without its [.gz]) is the file
    [LoadCVEMeta] opens for the scores, and the file
    [DownloadCISAKnownExploitsFeed] fetched is the one it reads the
    catalog from. *)
Theorem Sync_feeds_LoadCVEMeta {Time} net vulnPath cpeDatabaseURL log :
  Sync net vulnPath cpeDatabaseURL = (None, log) →
  ∃ u1 u2 p1 p2,
    log !! 2%nat = Some (Extracted u1 p1) ∧ log !! 3%nat = Some (Fetched u2 p2) ∧
    p1 = filepath_Join net vulnPath "epss_scores-current.csv" ∧
    ∀ (disk : Disk) loadDictionary unmarshal (insert : heap Time → _ → _),
      let w := worldAt (filepath_Join net) disk vulnPath loadDictionary unmarshal insert in
      openEPSS w = os_Open disk p1 ∧ readCISA w = os_ReadFile disk p2.
Proof.
  unfold Sync, DownloadEPSSFeed, DownloadCISAKnownExploitsFeed.
  destruct (DownloadCPEDatabase net vulnPath cpeDatabaseURL); [done|].
  destruct (DownloadNVDCVEFeed net vulnPath EmptyString); [done|].
  destruct (url_Parse net (epssFeedsURL +:+ "/" +:+ epssFilename)) as [u1|]; [|done].
  destruct (download_DownloadAndExtract net u1 _); [done|].
  destruct (url_Parse net cisaKnownExploitsURL) as [u2|]; [|done].
  destruct (download_Download net u2 _); [done|].
  intros [= <-]. eexists u1, u2, _, _. split_and!; try done.
Qed.
End Sync_facts.

(** * The further theorems at work on the samples *)

Lemma scores_follow_records_witness :
  ∃ scores,
    parseEPSSScoresFile Sample.ParseFloat (Ok Sample.wellFormedFile) = (scores, None) ∧
    Forall2 (λ rec sc, CVE sc = field rec 0 ∧ Sample.ParseFloat (field rec 1) = Ok (Score sc))
      [ ["CVE-1"; "0.5"; "0.9"]; ["CVE-2"; "0.25"; "0.1"] ] scores.
Proof.
  apply (scores_follow_records Sample.ParseFloat Sample.wellFormedFile
           [ ["CVE-1"; "0.5"; "0.9"]; ["CVE-2"; "0.25"; "0.1"] ]).
  - eapply reads_record; [vm_compute; reflexivity|].
    eapply reads_record; [vm_compute; reflexivity|].
    eapply reads_eof. vm_compute. reflexivity.
  - repeat constructor; eexists; vm_compute; reflexivity.
Defined.

Lemma parse_error_origin_witness :
  (parseEPSSScoresFile Sample.ParseFloat (Ok Sample.badScoreFile)).1 = [] ∧
  ((∃ rec, record_at (afterHeader Sample.badScoreFile) rec
             (Some (Errorf "parse epss score" (NumError "high")))) ∨
   (∃ rec e', record_at (afterHeader Sample.badScoreFile) rec None ∧ length rec = 3%nat ∧
              Sample.ParseFloat (field rec 1) = Fail e' ∧
              Errorf "parse epss score" (NumError "high") = Errorf "parse epss score" e')).
Proof.
  apply (parse_error_origin Sample.ParseFloat Sample.badScoreFile
           (Errorf "parse epss score" (NumError "high"))).
  vm_compute. reflexivity.
Defined.

Lemma wrong_field_count_aborts_witness :
  ∃ e, parseEPSSScoresFile Sample.ParseFloat (Ok Sample.shortRowFile) = ([], Some e).
Proof.
  apply (wrong_field_count_aborts Sample.ParseFloat Sample.shortRowFile
           ["CVE-2"; "0.25"] (Some (ParseError ErrFieldCount))).
  - eapply record_later; [vm_compute; reflexivity|discriminate|].
    eapply record_here; [vm_compute; reflexivity|discriminate].
  - simpl. lia.
Defined.

Lemma leading_comment_ignored_witness :
  parseEPSSScoresFile Sample.ParseFloat
    (Ok ("#model_version:v2022.01.01" +:+
         String Bytes.LF (Sample.file [Sample.header; "CVE-1,0.5,0.9"]))) =
  parseEPSSScoresFile Sample.ParseFloat (Ok (Sample.file [Sample.header; "CVE-1,0.5,0.9"])).
Proof.
  apply (leading_comment_ignored Sample.ParseFloat "#model_version:v2022.01.01"
           (Sample.file [Sample.header; "CVE-1,0.5,0.9"])).
  - right. reflexivity.
  - vm_compute. reflexivity.
Defined.

Lemma first_line_fields_irrelevant_witness :
  parseEPSSScoresFile Sample.ParseFloat
    (Ok ("cve,epss" +:+ String Bytes.LF (Sample.file ["CVE-1,0.5,0.9"]))) =
  parseEPSSScoresFile Sample.ParseFloat
    (Ok (Sample.header +:+ String Bytes.LF (Sample.file ["CVE-1,0.5,0.9"]))).
Proof.
  apply (first_line_fields_irrelevant Sample.ParseFloat "cve,epss" Sample.header
           (Sample.file ["CVE-1,0.5,0.9"])).
  - split_and!; [discriminate|reflexivity..].
  - split_and!; [discriminate|reflexivity..].
Defined.

Lemma merged_identifiers_witness :
  is_Some (metaMap Sample.scenarioState !! "V-2") ↔
    (∃ schema, Sample.scenarioDict !! "V-2" = Some schema ∧ is_Some (baseScoreV3 schema)) ∨
    "V-2" ∈ CVE <$> Sample.scenarioScores ∨
    "V-2" ∈ CVEID <$> Vulnerabilities Sample.scenarioCatalog.
Proof.
  apply (merged_identifiers Sample.time_Parse Sample.publishedDateFmt listedOrder listedOrder
           Sample.scenarioDict Sample.scenarioScores Sample.scenarioCatalog
           Sample.scenarioState "V-2").
  vm_compute. reflexivity.
Defined.

Lemma severity_only_record_witness :
  ∃ t, Sample.time_Parse Sample.publishedDateFmt "2021-01-01T00:00Z" = Ok t ∧
       canonical (SampleSync.mergedWith [] Sample.emptyCatalog) !! "V-1" =
         Some {| id := "V-1"; severityScore := Some 7.5%float; published := Some t;
                 exploitProbability := None; knownExploited := Some false |}.
Proof.
  apply (severity_only_record Sample.time_Parse Sample.publishedDateFmt listedOrder listedOrder
           Sample.scenarioDict [] Sample.emptyCatalog
           (SampleSync.mergedWith [] Sample.emptyCatalog) "V-1"
           (entryV3 7.5%float "2021-01-01T00:00Z") 7.5%float).
  - vm_compute. reflexivity.
  - vm_compute. reflexivity.
  - reflexivity.
  - apply not_elem_of_nil.
  - apply not_elem_of_nil.
Defined.

Lemma catalog_only_record_witness :
  canonical (SampleSync.mergedWith Sample.scenarioScores SampleSync.repeatedCatalog) !! "V-9" =
    Some {| id := "V-9"; severityScore := None; published := None;
            exploitProbability := None; knownExploited := Some true |}.
Proof.
  apply (catalog_only_record Sample.time_Parse Sample.publishedDateFmt listedOrder listedOrder
           Sample.scenarioDict Sample.scenarioScores SampleSync.repeatedCatalog
           (SampleSync.mergedWith Sample.scenarioScores SampleSync.repeatedCatalog) "V-9").
  - vm_compute. reflexivity.
  - intros schema Hk. vm_compute in Hk. discriminate.
  - intros Hin. simpl in Hin.
    repeat (apply elem_of_cons in Hin as [Hin|Hin]; [discriminate|]).
    by apply elem_of_nil in Hin.
  - simpl. apply elem_of_cons. by left.
Defined.

Lemma catalog_order_irrelevant_witness :
  canonical (SampleSync.mergedWith Sample.scenarioScores SampleSync.repeatedCatalog) =
  canonical (SampleSync.mergedWith Sample.scenarioScores SampleSync.plainCatalog).
Proof.
  apply (catalog_order_irrelevant Sample.time_Parse Sample.publishedDateFmt
           listedOrder listedOrder Sample.scenarioDict Sample.scenarioScores
           SampleSync.repeatedCatalog SampleSync.plainCatalog).
  - intros k. simpl. rewrite !elem_of_cons, !elem_of_nil. tauto.
  - vm_compute. reflexivity.
  - vm_compute. reflexivity.
Defined.

Lemma Sync_wraps_first_failure_witness :
  ∃ label cause,
    Errorf "sync NVD CVE feed" (StoreError "no route to host") = Errorf label cause ∧
    ((label = "sync CPE database" ∧
      DownloadCPEDatabase SampleSync.net "/offline" EmptyString = Some cause) ∨
     (label = "sync NVD CVE feed" ∧
      DownloadCPEDatabase SampleSync.net "/offline" EmptyString = None ∧
      DownloadNVDCVEFeed SampleSync.net "/offline" EmptyString = Some cause) ∨
     (label = "sync EPSS CVE feed" ∧
      DownloadCPEDatabase SampleSync.net "/offline" EmptyString = None ∧
      DownloadNVDCVEFeed SampleSync.net "/offline" EmptyString = None ∧
      (DownloadEPSSFeed SampleSync.net "/offline").1 = Some cause) ∨
     (label = "sync CISA known exploits feed" ∧
      DownloadCPEDatabase SampleSync.net "/offline" EmptyString = None ∧
      DownloadNVDCVEFeed SampleSync.net "/offline" EmptyString = None ∧
      (DownloadEPSSFeed SampleSync.net "/offline").1 = None ∧
      (DownloadCISAKnownExploitsFeed SampleSync.net "/offline").1 = Some cause)).
Proof.
  apply (Sync_wraps_first_failure SampleSync.net "/offline" EmptyString).
  reflexivity.
Defined.

Lemma Sync_feeds_LoadCVEMeta_witness :
  ∃ u1 u2 p1 p2,
    SampleSync.fullLog !! 2%nat = Some (Extracted u1 p1) ∧
    SampleSync.fullLog !! 3%nat = Some (Fetched u2 p2) ∧
    p1 = filepath_Join SampleSync.net "/vulns" "epss_scores-current.csv" ∧
    ∀ (disk : Disk) loadDictionary unmarshal (insert : heap string → _ → _),
      let w := worldAt (filepath_Join SampleSync.net) disk "/vulns"
                 loadDictionary unmarshal insert in
      openEPSS w = os_Open disk p1 ∧ readCISA w = os_ReadFile disk p2.
Proof.
  apply (Sync_feeds_LoadCVEMeta SampleSync.net "/vulns" "https://example.org/cpe.sqlite.gz"
           SampleSync.fullLog).
  vm_compute. reflexivity.
Defined.

Lemma probability_reads_last_row_witness :
  exploitProbability
    {| id := "V-1"; severityScore := Some 7.5%float;
       published := Some "2021-01-01T00:00Z";
       exploitProbability := Some 0.10%float; knownExploited := Some false |}
  = Score <$> last Sample.scenarioScores.
Proof.
  apply (probability_reads_last_row Sample.time_Parse Sample.publishedDateFmt
           listedOrder listedOrder Sample.scenarioDict Sample.scenarioScores
           Sample.scenarioCatalog Sample.scenarioState "V-1").
  - vm_compute. reflexivity.
  - simpl. apply elem_of_cons. by left.
  - vm_compute. reflexivity.
Defined.


Lemma ill_dated_entry_stops_run_witness :
  inserts (LoadCVEMeta Sample.time_Parse Sample.publishedDateFmt Sample.ParseFloat
             SampleSync.reversedOrder listedOrder listedOrder
             (Sample.world Sample.impactlessDict Sample.wellFormedFile Sample.scenarioCatalog))
    = [] ∧
  (ended (LoadCVEMeta Sample.time_Parse Sample.publishedDateFmt Sample.ParseFloat
            SampleSync.reversedOrder listedOrder listedOrder
            (Sample.world Sample.impactlessDict Sample.wellFormedFile Sample.scenarioCatalog))
     = Panicked NilDereference ∨
   ∃ e, ended (LoadCVEMeta Sample.time_Parse Sample.publishedDateFmt Sample.ParseFloat
                 SampleSync.reversedOrder listedOrder listedOrder
                 (Sample.world Sample.impactlessDict Sample.wellFormedFile
                    Sample.scenarioCatalog))
          = Returned (Some (Errorf "parse published_date" e))).
Proof.
  apply (ill_dated_entry_stops_run Sample.time_Parse Sample.publishedDateFmt Sample.ParseFloat
           SampleSync.reversedOrder listedOrder listedOrder
           (Sample.world Sample.impactlessDict Sample.wellFormedFile Sample.scenarioCatalog)
           ["nvdcve-1.1-2021.json.gz"] Sample.impactlessDict "V-3"
           (entryV3 9.8%float "01/01/2021")).
  - reflexivity.
  - reflexivity.
  - vm_compute. reflexivity.
  - split; [by eexists|]. eexists. vm_compute. reflexivity.
Defined.

(** On the samples: the file found where [Sync] put it, and a run that
    reaches the store. *)
Example load_after_sync :
  parseEPSSScoresFile Sample.ParseFloat
    (openEPSS (worldAt (Time:=string) (filepath_Join SampleSync.net) SampleSync.disk "/vulns"
                 (λ _, Ok Sample.scenarioDict) (λ _, Ok Sample.scenarioCatalog) (λ _ _, None)))
  = ([ {| CVE := "CVE-1"; Score := 0.5%float |}; {| CVE := "CVE-2"; Score := 0.25%float |} ],
     None).
Proof. vm_compute. reflexivity. Qed.
